(** * Batch sinks and handler-selection merge of the squid archive/processor

    A shallow embedding of
    - [substrate-processor/src/batch/handlers.ts]: [mergeDataHandlers],
      [mergeHandlerLists], [mergeContextRequests] (with its inner [merge])
      and [mergeMaps];
    - [substrate-archive/src/sink.ts]: the column buffer [Insert], the
      transactional [PostgresSink] and the streaming [WritableSink];
    followed by the properties of these functions.

    JavaScript objects that are used as dictionaries are finite maps
    ([gmap string _]) of their own properties, read through the prototype
    chain; objects whose key order is observable (the column set of an
    [Insert]) are association lists in insertion order. *)

From Stdlib Require Import Ascii.
From stdpp Require Import gmap strings list fin_maps pretty.

(* ===================================================================== *)
(** * Part I: definitions *)
(* ===================================================================== *)

(** ** handlers.ts *)

Module Handlers.

(** Modelled from the spec: the declaration of [ContextRequest]
    (interfaces/dataSelection) is not among the sources.  A selection
    value is what [merge(fa: any, fb: any)] distinguishes: [undefined]
    (a field that is absent), [null], a boolean, or a nested object of
    selection values. *)
#[local] Unset Elimination Schemes.
Inductive value : Type :=
  | VUndefined
  | VNull
  | VBool (b : bool)
  | VObj (props : gmap string value).
#[local] Set Elimination Schemes.

Abbreviation ContextRequest := (gmap string value).

(** [x == null]: true of [undefined] and [null] only. *)
Class Nullable (T : Type) := is_null : T → bool.

#[global] Instance value_nullable : Nullable value :=
  λ v, match v with VUndefined | VNull => true | _ => false end.

(** [x === true] *)
Definition is_true (v : value) : bool :=
  match v with VBool true => true | _ => false end.

(** JavaScript truthiness: [!x] is [negb (truthy x)]. *)
Definition truthy (v : value) : bool :=
  match v with VUndefined | VNull | VBool false => false | _ => true end.

(** The own property [key] of [o], [undefined] when [o] has none. *)
Definition get (o : gmap string value) (key : string) : value :=
  default VUndefined (o !! key).

(** *** Objects used as dictionaries

    A dictionary is a plain object: its own enumerable properties are a
    finite map, and its prototype is [Object.prototype], which nothing
    has extended.  [for (let key in o)] visits the own properties only
    (the members of [Object.prototype] are not enumerable), but a read
    [o[key]] goes up the prototype chain. *)

(** The names of the members of [Object.prototype]. *)
Definition Object_prototype : list string :=
  ["constructor"; "__defineGetter__"; "__defineSetter__"; "hasOwnProperty";
   "__lookupGetter__"; "__lookupSetter__"; "isPrototypeOf";
   "propertyIsEnumerable"; "toString"; "valueOf"; "__proto__";
   "toLocaleString"].

(** What a read [o[key]] finds: an own property, or the member of
    [Object.prototype] of that name (a function, or the prototype object
    itself under ["__proto__"]), which is an object: not [null], not
    falsy, not [true]. *)
Inductive item (T : Type) :=
  | Own (x : T)
  | Inherited (name : string).
Arguments Own {T} _.
Arguments Inherited {T} _.

(** [o[key]]; [None] is the [undefined] of a property found nowhere. *)
Definition read {T} (o : gmap string T) (key : string) : option (item T) :=
  match o !! key with
  | Some x => Some (Own x)
  | None => if bool_decide (key ∈ Object_prototype) then Some (Inherited key)
            else None
  end.

(** What a call returns.  [Foreign]: the call has used an inherited member
    of [Object.prototype] as an item of the dictionary, or has replaced
    the prototype of the object it builds; what it returns then is not
    described here. *)
Inductive outcome (A : Type) :=
  | Ok (x : A)
  | Foreign.
Arguments Ok {A} _.
Arguments Foreign {A}.

#[global] Instance outcome_bind : MBind outcome := λ A B k m,
  match m with Ok x => k x | Foreign => Foreign end.
#[global] Instance outcome_fmap : FMap outcome := λ A B f m,
  match m with Ok x => Ok (f x) | Foreign => Foreign end.

(** The values the setter of [__proto__] installs as a prototype: objects
    and [null]; it ignores the others. *)
Class Prototypal (T : Type) := sets_prototype : T → bool.

#[global] Instance value_prototypal : Prototypal value :=
  λ v, match v with VNull | VObj _ => true | _ => false end.

(** [result[key] = x] on a plain object: the own property [key] is
    created or overwritten, except under ["__proto__"], where the setter
    inherited from [Object.prototype] runs: no own property appears, and
    the prototype of [result] is replaced when [x] is an object or
    [null]. *)
Definition assign {T} `{Prototypal T}
    (key : string) (x : T) (result : gmap string T) : outcome (gmap string T) :=
  if decide (key = "__proto__") then
    if sets_prototype x then Foreign else Ok result
  else Ok (<[key := x]> result).

(** [mergeMaps]: two [for ... in] loops writing into a fresh [result].
    [b[key] == null] holds when the read finds nothing or a nullish own
    value; it fails on an inherited member, which is then handed to
    [mergeItems].  Each iteration writes the property named by its own
    key only, so the enumeration order of the loops is immaterial. *)
Definition mergeMaps {T} `{Nullable T} `{Prototypal T}
    (a b : gmap string T) (mergeItems : T → item T → outcome T)
    : outcome (gmap string T) :=
  result ← map_fold (λ key va acc,
      result ← acc;
      match read b key with
      | Some (Own vb) =>
          if is_null vb then assign key va result
          else x ← mergeItems va (Own vb); assign key x result
      | Some (Inherited name) =>
          x ← mergeItems va (Inherited name); assign key x result
      | None => assign key va result
      end) (Ok ∅) a;
  map_fold (λ key vb acc,
      result ← acc;
      match read a key with
      | Some (Own va) => if is_null va then assign key vb result else Ok result
      | Some (Inherited _) => Ok result
      | None => assign key vb result
      end) (Ok result) b.

(** [fb === true] and [!fb] for what a read found. *)
Definition item_is_true (fb : item value) : bool :=
  match fb with Own v => is_true v | Inherited _ => false end.

Definition item_truthy (fb : item value) : bool :=
  match fb with Own v => truthy v | Inherited _ => true end.

(** [return fb] *)
Definition returned (fb : item value) : outcome value :=
  match fb with Own v => Ok v | Inherited _ => Foreign end.

(** The inner function [merge] of [mergeContextRequests].  After the three
    early returns both arguments are truthy and not [true]: objects of
    selection values, or an inherited member as [fb]. *)
Fixpoint merge (fa : value) (fb : item value) {struct fa} : outcome value :=
  if is_true fa || item_is_true fb then Ok (VBool true)
  else if negb (truthy fa) then returned fb
  else if negb (item_truthy fb) then Ok fa
  else match fa, fb with
       | VObj a, Own (VObj b) => VObj <$> mergeMaps a b merge
       | _, _ => Foreign
       end.

(** [a?: ContextRequest]: [None] is [undefined] (or [null]). *)
Definition mergeContextRequests (a b : option ContextRequest)
    : outcome (option ContextRequest) :=
  match a, b with
  | Some a, Some b => Some <$> mergeMaps a b merge
  | _, _ => Ok None
  end.

Record HandlerList (H : Type) := mkHandlerList {
  data : option ContextRequest;
  handlers : list H
}.
Arguments mkHandlerList {H} _ _.
Arguments data {H} _.
Arguments handlers {H} _.

(** Objects and arrays are never [== null], and the setter of
    [__proto__] takes them. *)
#[global] Instance HandlerList_nullable {H} : Nullable (HandlerList H) := λ _, false.
#[global] Instance array_nullable {A} : Nullable (list A) := λ _, false.
#[global] Instance HandlerList_prototypal {H} : Prototypal (HandlerList H) :=
  λ _, true.
#[global] Instance array_prototypal {A} : Prototypal (list A) := λ _, true.

(** With an inherited member as [b], [b.handlers] is [undefined] and the
    list made by [concat] ends in [undefined]: no list of handlers. *)
Definition mergeHandlerLists {H} (a : HandlerList H) (b : item (HandlerList H))
    : outcome (HandlerList H) :=
  match b with
  | Own b =>
      data ← mergeContextRequests (data a) (data b);
      Ok {| data := data; handlers := handlers a ++ handlers b |}
  | Inherited _ => Foreign
  end.

(** [(ha, hb) => ha.concat(hb)]; with an inherited member as [hb] the
    member itself becomes the last element. *)
Definition concat {A} (ha : list A) (hb : item (list A)) : outcome (list A) :=
  match hb with
  | Own hb => Ok (ha ++ hb)
  | Inherited _ => Foreign
  end.

Section DataHandlers.
(** The handler function types of interfaces/dataHandlers are opaque
    here: the merge only moves handlers around. *)
Context {BlockHandler EventHandler CallHandler EvmLogHandler
         ContractsContractEmittedHandler EvmTopicSet : Type}.

Record EvmLogEntry := mkEvmLogEntry {
  filter : option (list EvmTopicSet);
  log_data : option ContextRequest;
  handler : EvmLogHandler
}.

Record DataHandlers := mkDataHandlers {
  pre : list BlockHandler;
  post : list BlockHandler;
  events : gmap string (HandlerList EventHandler);
  calls : gmap string (HandlerList CallHandler);
  evmLogs : gmap string (list EvmLogEntry);
  contractsContractEmitted :
    gmap string (HandlerList ContractsContractEmittedHandler)
}.

Definition mergeDataHandlers (a b : DataHandlers) : outcome DataHandlers :=
  events' ← mergeMaps (events a) (events b) mergeHandlerLists;
  calls' ← mergeMaps (calls a) (calls b) mergeHandlerLists;
  evmLogs' ← mergeMaps (evmLogs a) (evmLogs b) concat;
  contracts' ← mergeMaps (contractsContractEmitted a)
                         (contractsContractEmitted b) mergeHandlerLists;
  Ok {| pre := pre a ++ pre b;
        post := post a ++ post b;
        events := events';
        calls := calls';
        evmLogs := evmLogs';
        contractsContractEmitted := contracts' |}.
End DataHandlers.

Arguments EvmLogEntry : clear implicits.
Arguments DataHandlers : clear implicits.

(** *** The key-wise merge

    What the functions above compute on dictionaries none of whose keys
    is the name of a member of [Object.prototype], as total functions:
    there a read finds own properties only. *)
Module Keywise.

Definition mergeMaps {T} `{Nullable T}
    (a b : gmap string T) (mergeItems : T → T → T) : gmap string T :=
  let result :=
    map_fold (λ key va result,
      match b !! key with
      | Some vb => if is_null vb then <[key := va]> result
                   else <[key := mergeItems va vb]> result
      | None => <[key := va]> result
      end) ∅ a in
  map_fold (λ key vb result,
    match a !! key with
    | Some va => if is_null va then <[key := vb]> result else result
    | None => <[key := vb]> result
    end) result b.

Fixpoint merge (fa fb : value) {struct fa} : value :=
  if is_true fa || is_true fb then VBool true
  else if negb (truthy fa) then fb
  else if negb (truthy fb) then fa
  else match fa, fb with
       | VObj a, VObj b => VObj (mergeMaps a b merge)
       | _, _ => VUndefined
       end.

Definition mergeContextRequests (a b : option ContextRequest)
    : option ContextRequest :=
  match a, b with
  | Some a, Some b => Some (mergeMaps a b merge)
  | _, _ => None
  end.

Definition mergeHandlerLists {H} (a b : HandlerList H) : HandlerList H :=
  {| data := mergeContextRequests (data a) (data b);
     handlers := handlers a ++ handlers b |}.

Section DataHandlers.
Context {BlockHandler EventHandler CallHandler EvmLogHandler
         ContractsContractEmittedHandler EvmTopicSet : Type}.

Definition mergeDataHandlers
    (a b : DataHandlers BlockHandler EventHandler CallHandler EvmLogHandler
                        ContractsContractEmittedHandler EvmTopicSet)
    : DataHandlers BlockHandler EventHandler CallHandler EvmLogHandler
                   ContractsContractEmittedHandler EvmTopicSet :=
  {| pre := pre a ++ pre b;
     post := post a ++ post b;
     events := mergeMaps (events a) (events b) mergeHandlerLists;
     calls := mergeMaps (calls a) (calls b) mergeHandlerLists;
     evmLogs := mergeMaps (evmLogs a) (evmLogs b) (λ ha hb, ha ++ hb);
     contractsContractEmitted :=
       mergeMaps (contractsContractEmitted a) (contractsContractEmitted b)
                 mergeHandlerLists |}.
End DataHandlers.

End Keywise.

(** Measures used to reason about nested selections. *)
Fixpoint vsize (v : value) : nat :=
  match v with
  | VObj m => S (map_fold (λ _ x n, vsize x + n) 0 m)
  | _ => 0
  end.

(** A selection as the field types admit it: booleans, [undefined] and
    nested objects, with no [null] anywhere. *)
Fixpoint null_free (v : value) : bool :=
  match v with
  | VNull => false
  | VObj m => map_fold (λ _ x ok, null_free x && ok) true m
  | _ => true
  end.

(** What the key-wise merge leaves under one key, as a function of what
    the two inputs hold under it. *)
Definition merge_entry {T} `{Nullable T}
    (f : T → T → T) (oa ob : option T) : option T :=
  match oa, ob with
  | Some va, Some vb =>
      Some (if is_null va then vb else if is_null vb then va else f va vb)
  | Some va, None => Some va
  | None, _ => ob
  end.

(** *** Notions used to state the properties of the merge *)

(** No own property of [o] has the name of a member of
    [Object.prototype]. *)
Definition plain_keys {T} (o : gmap string T) : bool :=
  forallb (λ name, if o !! name is Some _ then false else true)
          Object_prototype.

(** The same at every depth of a selection. *)
Fixpoint plain_selection (v : value) : bool :=
  match v with
  | VObj m =>
      forallb (λ name, if m !! name is Some _ then false else true)
              Object_prototype
      && map_fold (λ _ x ok, plain_selection x && ok) true m
  | _ => true
  end.

Definition plain_tree (t : option ContextRequest) : bool :=
  match t with Some a => plain_selection (VObj a) | None => true end.

(** A map of handler lists with plain keys and plain selections. *)
Definition plain_lists {H} (m : gmap string (HandlerList H)) : bool :=
  plain_keys m && map_fold (λ _ l ok, plain_tree (data l) && ok) true m.

Definition plain_registry {BH EH CH LH KH TS}
    (r : DataHandlers BH EH CH LH KH TS) : bool :=
  plain_lists (events r) && plain_lists (calls r) && plain_keys (evmLogs r)
  && plain_lists (contractsContractEmitted r).

(** No object of the selection has an own property named ["__proto__"]. *)
Fixpoint proto_free (v : value) : bool :=
  match v with
  | VObj m =>
      (if m !! "__proto__" is Some _ then false else true)
      && map_fold (λ _ x ok, proto_free x && ok) true m
  | _ => true
  end.

Definition proto_free_tree (t : option ContextRequest) : bool :=
  match t with Some a => proto_free (VObj a) | None => true end.


(** [big] asks for everything [small] asks for. *)
Fixpoint covers (big small : value) {struct small} : bool :=
  match small with
  | VUndefined | VNull | VBool false => true
  | VBool true => is_true big
  | VObj n =>
      match big with
      | VBool true => true
      | VObj m => map_fold (λ key v ok, covers (get m key) v && ok) true n
      | _ => false
      end
  end.

(** A top-level selection without [null]. *)
Definition tree_null_free (t : option ContextRequest) : bool :=
  match t with Some a => null_free (VObj a) | None => true end.

(** Two handler lists that ask for the same data and hold the same
    handlers, in whatever order. *)
Definition same_plan {H} (x y : HandlerList H) : Prop :=
  data x = data y ∧ handlers x ≡ₚ handlers y.

(** No handler list under [key] has a [null] in its selection. *)
Definition null_free_under {H} (key : string) (m : gmap string (HandlerList H))
    : Prop :=
  ∀ l, m !! key = Some l → tree_null_free (data l) = true.

End Handlers.

(** ** sink.ts *)

Module Archive.

(** *** Plain objects with observable key order *)

(** [o[name]] on an object kept in insertion order. *)
Fixpoint obj_get {A} (name : string) (o : list (string * A)) : option A :=
  match o with
  | [] => None
  | (n, x) :: o' => if decide (n = name) then Some x else obj_get name o'
  end.

(** [o[name] = x]: overwrite in place, or append a new property. *)
Fixpoint obj_set {A} (name : string) (x : A) (o : list (string * A))
    : list (string * A) :=
  match o with
  | [] => [(name, x)]
  | (n, y) :: o' =>
      if decide (n = name) then (n, x) :: o' else (n, y) :: obj_set name x o'
  end.

Section Sink.
(** [V]: the values stored in columns ([unknown] in the source);
    [E]: the errors raised by the database client or the stream. *)
Context {V E : Type}.
(** util/json is not among the sources; the two serialisers used as
    column transforms are parameters. *)
Context (toJsonString toJSON : V → V).

(** A row of any entity, read by field name: [row[name]]. *)
Definition Row := string → V.

Record ColumnDef := mkColumnDef {
  col_map : option (V → V);
  cast : option string
}.

(** [TableColumns<E>]: an object literal, keys in declaration order. *)
Definition TableColumns := list (string * ColumnDef).

(** *** class Insert *)

Record Insert := mkInsert {
  table : string;
  mapping : TableColumns;
  sql : string;
  columns : list (string * list V)
}.

Definition makeColumns (mapping : TableColumns) : list (string * list V) :=
  fold_left (λ columns '(name, _), obj_set name [] columns) mapping [].

(** The positional parameter of column [idx]: ['$' + (idx + 1)], followed
    by the cast when [cast] is a non-empty string. *)
Definition sql_param (idx : nat) (def : ColumnDef) : string :=
  let param := "$" +:+ pretty (idx + 1) in
  match cast def with
  | Some c => if decide (c = EmptyString) then param else param +:+ "::" +:+ c +:+ "[]"
  | None => param
  end.

Definition Insert_sql (table : string) (mapping : TableColumns) : string :=
  let names := mapping.*1 in
  let args := imap (λ idx '(_, def), sql_param idx def) mapping in
  "INSERT INTO " +:+ table +:+ " (" +:+ String.concat ", " names
    +:+ ") SELECT * FROM unnest(" +:+ String.concat ", " args
    +:+ ") AS i(" +:+ String.concat ", " names +:+ ")".

(** [new Insert(table, mapping)] *)
Definition Insert_new (table : string) (mapping : TableColumns) : Insert :=
  {| table := table; mapping := mapping;
     sql := Insert_sql table mapping;
     columns := makeColumns mapping |}.

(** [columns[name].push(v)]; [None] is the TypeError raised when
    [columns[name]] is [undefined]. *)
Fixpoint push_column (name : string) (v : V) (columns : list (string * list V))
    : option (list (string * list V)) :=
  match columns with
  | [] => None
  | (n, col) :: columns' =>
      if decide (n = name) then Some ((n, col ++ [v]) :: columns')
      else ((n, col) ::.) <$> push_column name v columns'
  end.

(** [def.map ? def.map(v) : v] *)
Definition cell (def : ColumnDef) (v : V) : V :=
  match col_map def with Some f => f v | None => v end.

(** The loop of [add] over the properties of [mapping]. *)
Fixpoint add_loop (defs : TableColumns) (row : Row)
    (columns : list (string * list V)) : option (list (string * list V)) :=
  match defs with
  | [] => Some columns
  | (name, def) :: defs' =>
      columns' ← push_column name (cell def (row name)) columns;
      add_loop defs' row columns'
  end.

Definition Insert_with_columns (ins : Insert) (cols : list (string * list V))
    : Insert :=
  {| table := table ins; mapping := mapping ins; sql := sql ins;
     columns := cols |}.

Definition add (row : Row) (ins : Insert) : option Insert :=
  Insert_with_columns ins <$> add_loop (mapping ins) row (columns ins).

Fixpoint addMany (rows : list Row) (ins : Insert) : option Insert :=
  match rows with
  | [] => Some ins
  | row :: rows' => ins' ← add row ins; addMany rows' ins'
  end.

(** [get size()]: the length of the first column, 0 without columns. *)
Definition size (ins : Insert) : nat :=
  match columns ins with
  | [] => 0
  | (_, col) :: _ => length col
  end.

Definition clear (ins : Insert) : Insert :=
  Insert_with_columns ins (makeColumns (mapping ins)).

(** *** The database client *)

(** One call [db.query(text, values)]. *)
Record Query := mkQuery {
  text : string;
  values : list (list V)
}.

(** The client records what was sent; [respond] decides, from everything
    sent before and the statement at hand, whether the statement fails. *)
Record Client := mkClient {
  history : list Query;
  respond : list Query → Query → option E
}.

Definition Client_query (q : Query) (c : Client) : option E * Client :=
  (respond c (history c) q,
   {| history := history c ++ [q]; respond := respond c |}).

(** *** Metrics (util-internal-counters); time stamps are left out. *)
Inductive SpeedCall := SpeedStart | SpeedStop (n : nat).

(** *** class PostgresSink *)

Record PostgresSink := mkPostgresSink {
  metadataInsert : Insert;
  headerInsert : Insert;
  extrinsicInsert : Insert;
  callInsert : Insert;
  eventInsert : Insert;
  warningInsert : Insert;
  db : Client;
  speed : option (list SpeedCall);
  progress : option (list nat)
}.

Definition plain (c : string) : ColumnDef :=
  {| col_map := None; cast := Some c |}.
Definition mapped (f : V → V) (c : string) : ColumnDef :=
  {| col_map := Some f; cast := Some c |}.

Definition metadata_columns : TableColumns :=
  [("spec_version", plain "int"); ("block_height", plain "int");
   ("block_hash", plain "text"); ("hex", plain "text")].
Definition header_columns : TableColumns :=
  [("id", plain "text"); ("height", plain "numeric"); ("hash", plain "text");
   ("parent_hash", plain "text"); ("timestamp", plain "timestamptz");
   ("spec_version", plain "int")].
Definition extrinsic_columns : TableColumns :=
  [("id", plain "text"); ("block_id", plain "text"); ("name", plain "text");
   ("index_in_block", plain "integer");
   ("signature", mapped toJsonString "jsonb"); ("success", plain "bool");
   ("hash", mapped toJSON "text"); ("call_id", plain "text")].
Definition call_columns : TableColumns :=
  [("id", plain "text"); ("index", plain "integer"); ("block_id", plain "text");
   ("extrinsic_id", plain "text"); ("name", plain "text");
   ("parent_id", plain "text"); ("success", plain "bool");
   ("args", mapped toJsonString "jsonb")].
Definition event_columns : TableColumns :=
  [("id", plain "text"); ("block_id", plain "text"); ("phase", plain "text");
   ("index_in_block", plain "integer"); ("name", plain "text");
   ("extrinsic_id", plain "text"); ("call_id", plain "text");
   ("args", mapped toJsonString "jsonb")].
Definition warning_columns : TableColumns :=
  [("block_id", plain "text"); ("message", plain "text")].

(** [new PostgresSink({db, speed, progress})] *)
Definition PostgresSink_new (db : Client)
    (speed : option (list SpeedCall)) (progress : option (list nat))
    : PostgresSink :=
  {| metadataInsert := Insert_new "metadata" metadata_columns;
     headerInsert := Insert_new "block" header_columns;
     extrinsicInsert := Insert_new "extrinsic" extrinsic_columns;
     callInsert := Insert_new "call" call_columns;
     eventInsert := Insert_new "event" event_columns;
     warningInsert := Insert_new "warning" warning_columns;
     db := db; speed := speed; progress := progress |}.

Record BlockData := mkBlockData {
  header : Row;
  metadata : option Row;
  extrinsics : list Row;
  calls : list Row;
  events : list Row;
  warnings : option (list Row);
  last : bool
}.

(** *** Asynchronous methods of the sink

    An [async] method is a state transformer that ends in a value or in
    a raised error; [await] is sequencing. *)
Inductive exn := TypeError | DbError (e : E).

Definition Task (A : Type) : Type := PostgresSink → (exn + A) * PostgresSink.

Definition ret {A} (x : A) : Task A := λ s, (inr x, s).
Definition throw {A} (e : exn) : Task A := λ s, (inl e, s).
Definition bind {A B} (m : Task A) (k : A → Task B) : Task B :=
  λ s, match m s with
       | (inr x, s') => k x s'
       | (inl e, s') => (inl e, s')
       end.
(** [try { m } catch (e) { h e }] *)
Definition try_catch {A} (m : Task A) (h : exn → Task A) : Task A :=
  λ s, match m s with
       | (inl e, s') => h e s'
       | (inr x, s') => (inr x, s')
       end.
(** [m.catch(() => {})] *)
Definition swallow (m : Task unit) : Task unit := λ s, (inr tt, (m s).2).
Definition this : Task PostgresSink := λ s, (inr s, s).

#[global] Instance Task_bind : MBind Task := λ A B k m, bind m k.

(** The six private [Insert] fields, by name. *)
Inductive buffer :=
  MetadataBuf | HeaderBuf | ExtrinsicBuf | CallBuf | EventBuf | WarningBuf.

#[global] Instance buffer_eq_dec : EqDecision buffer.
Proof. solve_decision. Defined.

Definition buf (b : buffer) (s : PostgresSink) : Insert :=
  match b with
  | MetadataBuf => metadataInsert s
  | HeaderBuf => headerInsert s
  | ExtrinsicBuf => extrinsicInsert s
  | CallBuf => callInsert s
  | EventBuf => eventInsert s
  | WarningBuf => warningInsert s
  end.

Definition set_buf (b : buffer) (i : Insert) (s : PostgresSink) : PostgresSink :=
  {| metadataInsert := if b is MetadataBuf then i else metadataInsert s;
     headerInsert := if b is HeaderBuf then i else headerInsert s;
     extrinsicInsert := if b is ExtrinsicBuf then i else extrinsicInsert s;
     callInsert := if b is CallBuf then i else callInsert s;
     eventInsert := if b is EventBuf then i else eventInsert s;
     warningInsert := if b is WarningBuf then i else warningInsert s;
     db := db s; speed := speed s; progress := progress s |}.

Definition set_db (c : Client) (s : PostgresSink) : PostgresSink :=
  {| metadataInsert := metadataInsert s; headerInsert := headerInsert s;
     extrinsicInsert := extrinsicInsert s; callInsert := callInsert s;
     eventInsert := eventInsert s; warningInsert := warningInsert s;
     db := c; speed := speed s; progress := progress s |}.

Definition set_metrics (sp : option (list SpeedCall)) (pr : option (list nat))
    (s : PostgresSink) : PostgresSink :=
  {| metadataInsert := metadataInsert s; headerInsert := headerInsert s;
     extrinsicInsert := extrinsicInsert s; callInsert := callInsert s;
     eventInsert := eventInsert s; warningInsert := warningInsert s;
     db := db s; speed := sp; progress := pr |}.

(** A synchronous method call on one of the buffers. *)
Definition on_buffer (b : buffer) (f : Insert → option Insert) : Task unit :=
  λ s, match f (buf b s) with
       | Some i => (inr tt, set_buf b i s)
       | None => (inl TypeError, s)
       end.

(** How an awaited [db.query] ends: it returns, or raises the error of
    the client. *)
Definition settled (r : option E) : exn + unit :=
  match r with Some e => inl (DbError e) | None => inr tt end.

(** [await this.db.query(...)] *)
Definition db_query (q : Query) : Task unit :=
  λ s, let '(r, c) := Client_query q (db s) in (settled r, set_db c s).

Definition statement (ins : Insert) : Query :=
  {| text := sql ins; values := (columns ins).*2 |}.

(** [Insert.query(db)] on buffer [b] *)
Definition Insert_query (b : buffer) : Task unit :=
  λ s, if decide (size (buf b s) = 0) then (inr tt, s)
       else db_query (statement (buf b s)) s.

(** [this.speed?.start()], [this.speed?.stop(n, time)],
    [this.progress?.inc(n, time)] *)
Definition speed_call (c : SpeedCall) : Task unit :=
  λ s, (inr tt, set_metrics ((.++ [c]) <$> speed s) (progress s) s).
Definition progress_inc (n : nat) : Task unit :=
  λ s, (inr tt, set_metrics (speed s) ((.++ [n]) <$> progress s) s).

Definition BEGIN : Query := {| text := "BEGIN"; values := [] |}.
Definition COMMIT : Query := {| text := "COMMIT"; values := [] |}.
Definition ROLLBACK : Query := {| text := "ROLLBACK"; values := [] |}.

Definition tx {A} (cb : Task A) : Task A :=
  db_query BEGIN;;
  try_catch
    (result ← cb;
     db_query COMMIT;;
     ret result)
    (λ e, swallow (db_query ROLLBACK);; throw e).

Definition submit : Task unit :=
  s ← this;
  let size := size (headerInsert s) in
  speed_call SpeedStart;;
  tx (Insert_query MetadataBuf;;
      Insert_query HeaderBuf;;
      Insert_query ExtrinsicBuf;;
      Insert_query CallBuf;;
      Insert_query EventBuf;;
      Insert_query WarningBuf);;
  on_buffer MetadataBuf (Some ∘ clear);;
  on_buffer HeaderBuf (Some ∘ clear);;
  on_buffer ExtrinsicBuf (Some ∘ clear);;
  on_buffer CallBuf (Some ∘ clear);;
  on_buffer EventBuf (Some ∘ clear);;
  on_buffer WarningBuf (Some ∘ clear);;
  s ← this;
  if bool_decide (is_Some (speed s)) || bool_decide (is_Some (progress s))
  then speed_call (SpeedStop size);; progress_inc size
  else ret tt.

Definition write (block : BlockData) : Task unit :=
  (if metadata block is Some m then on_buffer MetadataBuf (add m) else ret tt);;
  on_buffer HeaderBuf (add (header block));;
  on_buffer ExtrinsicBuf (addMany (extrinsics block));;
  on_buffer CallBuf (addMany (calls block));;
  on_buffer EventBuf (addMany (events block));;
  (if warnings block is Some ws then on_buffer WarningBuf (addMany ws)
   else ret tt);;
  s ← this;
  if last block || bool_decide (20 < size (headerInsert s))
  then submit
  else ret tt.

(** The caller's loop: [for (block of blocks) await sink.write(block)]. *)
Fixpoint write_all (blocks : list BlockData) : Task unit :=
  match blocks with
  | [] => ret tt
  | block :: blocks' => write block;; write_all blocks'
  end.

(** The appends of [write], up to the test that decides on a flush. *)
Definition append_block (block : BlockData) : Task unit :=
  (if metadata block is Some m then on_buffer MetadataBuf (add m) else ret tt);;
  on_buffer HeaderBuf (add (header block));;
  on_buffer ExtrinsicBuf (addMany (extrinsics block));;
  on_buffer CallBuf (addMany (calls block));;
  on_buffer EventBuf (addMany (events block));;
  (if warnings block is Some ws then on_buffer WarningBuf (addMany ws)
   else ret tt).

(** The buffers in the order [submit] visits them. *)
Definition all_buffers : list buffer :=
  [MetadataBuf; HeaderBuf; ExtrinsicBuf; CallBuf; EventBuf; WarningBuf].
Definition buffers (s : PostgresSink) : list Insert :=
  (λ b, buf b s) <$> all_buffers.

(** The insert statements a flush of [s] has to send: one per buffer
    that holds rows. *)
Definition pending (s : PostgresSink) : list Query :=
  statement <$> filter (λ ins, size ins ≠ 0) (buffers s).

(** *** Notions used to state the properties of the sink *)

(** The representation invariant of an [Insert]: [mapping] is an object, so
    its keys are distinct, and [columns] has the keys of [mapping], in the
    same order. *)
Definition Insert_wf (ins : Insert) : Prop :=
  NoDup (mapping ins).*1 ∧ (columns ins).*1 = (mapping ins).*1.

(** One more row on top of the columns, column by column. *)
Definition with_row (row : Row) (defs : TableColumns)
    (columns : list (string * list V)) : list (string * list V) :=
  zip_with (λ '(name, def) '(n, col), (n, col ++ [cell def (row name)]))
           defs columns.

(** The calls a client of [Insert] can make. *)
Inductive op := Add (row : Row) | AddMany (rows : list Row) | Clear.

Definition apply_op (o : op) (ins : Insert) : option Insert :=
  match o with
  | Add row => add row ins
  | AddMany rows => addMany rows ins
  | Clear => Some (clear ins)
  end.

Fixpoint apply_ops (ops : list op) (ins : Insert) : option Insert :=
  match ops with
  | [] => Some ins
  | o :: ops' => ins' ← apply_op o ins; apply_ops ops' ins'
  end.


(** The columns of an empty buffer. *)
Definition empty_columns (defs : TableColumns) : list (string * list V) :=
  (λ d, (d.1, [])) <$> defs.

(** Row alignment: every column is as long as [size] says. *)
Definition aligned (ins : Insert) : Prop :=
  Forall (λ col, length col = size ins) (columns ins).*2.

(** What stays true of a buffer declared with [defs] across [add],
    [addMany] and [clear]. *)
Definition steady (defs : TableColumns) (ins : Insert) : Prop :=
  mapping ins = defs ∧ Insert_wf ins ∧ aligned ins.

(** The table each buffer of the sink belongs to. *)
Definition table_of (b : buffer) : string :=
  match b with
  | MetadataBuf => "metadata"
  | HeaderBuf => "block"
  | ExtrinsicBuf => "extrinsic"
  | CallBuf => "call"
  | EventBuf => "event"
  | WarningBuf => "warning"
  end.

(** The invariant of a [PostgresSink]: its six buffers are well formed and
    are those of the six tables. *)
Definition Sink_wf (s : PostgresSink) : Prop :=
  ∀ b, Insert_wf (buf b s)
       ∧ table (buf b s) = table_of b
       ∧ sql (buf b s) = Insert_sql (table_of b) (mapping (buf b s)).

(** [ins'] is a later state of the buffer [ins]: same table, same column
    declarations, same statement text. *)
Definition same_table (ins ins' : Insert) : Prop :=
  table ins' = table ins ∧ mapping ins' = mapping ins ∧ sql ins' = sql ins.

Definition sizes (s : PostgresSink) : list nat := size <$> buffers s.

(** Sending statements one after the other, up to the first that fails. *)
Fixpoint send_all (qs : list Query) (c : Client) : option E * Client :=
  match qs with
  | [] => (None, c)
  | q :: qs' =>
      match Client_query q c with
      | (Some e, c') => (Some e, c')
      | (None, c') => send_all qs' c'
      end
  end.

(** [Insert.query] on the buffers [bs], in this order. *)
Fixpoint query_all (bs : list buffer) : Task unit :=
  match bs with
  | [] => ret tt
  | [b] => Insert_query b
  | b :: bs' => Insert_query b;; query_all bs'
  end.

(** A sequence of blocks none of which is marked [last] and none of which,
    once appended, leaves more than 20 rows in the header buffer. *)
Fixpoint quiet (s : PostgresSink) (blocks : list BlockData) : bool :=
  match blocks with
  | [] => true
  | block :: blocks' =>
      negb (last block)
      && match append_block block s with
         | (inr _, s1) =>
             bool_decide (size (headerInsert s1) ≤ 20) && quiet s1 blocks'
         | (inl _, _) => false
         end
  end.

(** [s'] is [s] after appends: same client and metrics, well-formed
    buffers that did not shrink. *)
Definition grows (s s' : PostgresSink) : Prop :=
  Sink_wf s' ∧ db s' = db s ∧ speed s' = speed s ∧ progress s' = progress s
  ∧ ∀ b, size (buf b s) ≤ size (buf b s').

(** The sink once [submit] has called [this.speed?.start()]. *)
Definition started (s : PostgresSink) : PostgresSink :=
  set_metrics ((.++ [SpeedStart]) <$> speed s) (progress s) s.

(** Everything a flush of [s] sends when nothing fails. *)
Definition plan (s : PostgresSink) : list Query :=
  BEGIN :: pending s ++ [COMMIT].

(** *** Notions used to state further properties of the sink *)

(** The column a list of rows fills under one declaration. *)
Definition column_of (rows : list Row) (d : string * ColumnDef)
    : string * list V :=
  (d.1, (λ row, cell d.2 (row d.1)) <$> rows).

(** The sink after a flush that reached [c] and succeeded: every buffer
    cleared, the metrics told about the [n] header rows flushed. *)
Definition flushed (c : Client) (s : PostgresSink) : PostgresSink :=
  let n := size (headerInsert s) in
  {| metadataInsert := clear (metadataInsert s);
     headerInsert := clear (headerInsert s);
     extrinsicInsert := clear (extrinsicInsert s);
     callInsert := clear (callInsert s);
     eventInsert := clear (eventInsert s);
     warningInsert := clear (warningInsert s);
     db := c;
     speed := (.++ [SpeedStart; SpeedStop n]) <$> speed s;
     progress := (.++ [n]) <$> progress s |}.

(** A server that accepts every statement. *)
Definition accepts_all (c : Client) : Prop :=
  ∀ h q, respond c h q = None.
End Sink.

End Archive.

(** ** sink.ts, class WritableSink

    The sink lives in an event loop.  What happens to it is a sequence of
    events: the caller invokes [write] or [close], or the stream emits
    ['drain'] or ['error'].  A call of [write] returns a promise; the
    promises handed out so far are kept next to the sink, in call order. *)

Module Stream.
Import Archive.

Section WritableSink.
Context {V E : Type}.
(** [toJsonString(block)], the one-line text of a block (util/json). *)
Context (toJsonString : @BlockData V → string).

(** What a promise of [write] can be rejected with: the error of the
    stream, or the AssertionError of [assert]. *)
Inductive failure := ChannelError (err : E) | AssertionError.

Inductive promise := Pending | Fulfilled | Rejected (f : failure).

(** [error] holds an [Error] object, which is truthy: [if (this.error)]
    is the test for [Some]. *)
Record WritableSink := mkWritableSink {
  listening : bool;            (* [onError]/[onDrain] are registered *)
  chunks : list string;        (* arguments of [writable.write], oldest first *)
  speed : option (list SpeedCall);
  progress : option (list nat);
  error : option E;
  drainHandle : option nat     (* the call of [write] that awaits [drain()] *)
}.

Record Runtime := mkRuntime {
  sink : WritableSink;
  promises : list promise
}.

(** [new WritableSink({writable, speed, progress})] *)
Definition WritableSink_new (speed : option (list SpeedCall))
    (progress : option (list nat)) : WritableSink :=
  {| listening := true; chunks := []; speed := speed; progress := progress;
     error := None; drainHandle := None |}.

Definition start (speed : option (list SpeedCall)) (progress : option (list nat))
    : Runtime :=
  {| sink := WritableSink_new speed progress; promises := [] |}.

Definition close (s : WritableSink) : WritableSink :=
  {| listening := false; chunks := chunks s; speed := speed s;
     progress := progress s; error := error s; drainHandle := drainHandle s |}.

Definition set_error (err : E) (s : WritableSink) : WritableSink :=
  {| listening := listening s; chunks := chunks s; speed := speed s;
     progress := progress s; error := Some err; drainHandle := drainHandle s |}.

Definition set_drainHandle (h : option nat) (s : WritableSink) : WritableSink :=
  {| listening := listening s; chunks := chunks s; speed := speed s;
     progress := progress s; error := error s; drainHandle := h |}.

(** [this.speed?.start()], then the two [writable.write] calls; the
    second chunk is the line feed, the one character of code 10. *)
Definition enqueue (block : BlockData) (s : WritableSink) : WritableSink :=
  {| listening := listening s;
     chunks := chunks s ++ [toJsonString block; String "010"%char EmptyString];
     speed := (.++ [SpeedStart]) <$> speed s;
     progress := progress s; error := error s; drainHandle := drainHandle s |}.

(** The end of [write]: [this.speed || this.writable] always holds, the
    writable being an object. *)
Definition report (s : WritableSink) : WritableSink :=
  {| listening := listening s; chunks := chunks s;
     speed := (.++ [SpeedStop 1]) <$> speed s;
     progress := (.++ [1]) <$> progress s;
     error := error s; drainHandle := drainHandle s |}.

(** [drain()], called by the call of [write] number [call]: the
    assertion [this.drainHandle == null], then the new handle.  [None] is
    the AssertionError. *)
Definition drain (call : nat) (s : WritableSink) : option WritableSink :=
  match drainHandle s with
  | Some _ => None
  | None => Some (set_drainHandle (Some call) s)
  end.

(** A call of [write], run up to its first suspension.  [saturated] is
    the negated answer of [writable.write('\n')]. *)
Definition write (block : BlockData) (saturated : bool) (r : Runtime) : Runtime :=
  let call := length (promises r) in
  match error (sink r) with
  | Some err =>
      {| sink := sink r;
         promises := promises r ++ [Rejected (ChannelError err)] |}
  | None =>
      let s := enqueue block (sink r) in
      if saturated then
        match drain call s with
        | None =>
            {| sink := s; promises := promises r ++ [Rejected AssertionError] |}
        | Some s' => {| sink := s'; promises := promises r ++ [Pending] |}
        end
      else {| sink := report s; promises := promises r ++ [Fulfilled] |}
  end.

(** [onDrain]: resolving the handle lets the suspended [write] finish. *)
Definition onDrain (r : Runtime) : Runtime :=
  match drainHandle (sink r) with
  | Some call =>
      {| sink := report (set_drainHandle None (sink r));
         promises := <[call := Fulfilled]> (promises r) |}
  | None => r
  end.

Definition onError (err : E) (r : Runtime) : Runtime :=
  let s := set_error err (close (sink r)) in
  match drainHandle s with
  | Some call =>
      {| sink := set_drainHandle None s;
         promises := <[call := Rejected (ChannelError err)]> (promises r) |}
  | None => {| sink := s; promises := promises r |}
  end.

Inductive event :=
  | Write (block : @BlockData V) (saturated : bool)
  | EmitDrain
  | EmitError (err : E)
  | Close.

(** The stream calls only the listeners that are registered. *)
Definition step (r : Runtime) (ev : event) : Runtime :=
  match ev with
  | Write block saturated => write block saturated r
  | EmitDrain => if listening (sink r) then onDrain r else r
  | EmitError err => if listening (sink r) then onError err r else r
  | Close => {| sink := close (sink r); promises := promises r |}
  end.

Definition run (r : Runtime) (evs : list event) : Runtime :=
  fold_left step evs r.

Definition is_pending (p : promise) : bool :=
  match p with Pending => true | _ => false end.

(** The single-writer discipline: [write] is called only when no
    earlier call is still pending. *)
Fixpoint sequential (r : Runtime) (evs : list event) : bool :=
  match evs with
  | [] => true
  | ev :: evs' =>
      (match ev with
       | Write _ _ => forallb (negb ∘ is_pending) (promises r)
       | _ => true
       end) && sequential (step r ev) evs'
  end.

(** The handle and the suspended call go together. *)
Definition handle_inv (r : Runtime) : Prop :=
  ∀ call, promises r !! call = Some Pending ↔ drainHandle (sink r) = Some call.

(** *** Notions used to state further properties of the stream writer *)

(** The blocks whose text reaches the stream: those written before an
    error is observed.  [listening] tells whether the listeners are still
    registered. *)
Fixpoint accepted (listening : bool) (evs : list event) : list BlockData :=
  match evs with
  | [] => []
  | Write block _ :: evs' => block :: accepted listening evs'
  | EmitDrain :: evs' => accepted listening evs'
  | EmitError _ :: evs' => if listening then [] else accepted listening evs'
  | Close :: evs' => accepted false evs'
  end.

Definition is_fulfilled (p : promise) : bool :=
  match p with Fulfilled => true | _ => false end.

(** The number of calls of [write] that completed. *)
Definition completed (ps : list promise) : nat :=
  sum_list_with (λ p, if is_fulfilled p then 1 else 0) ps.
End WritableSink.

End Stream.

(** ** Connection options read from the environment

    [createConnectionOptions], the one function of the configuration
    module that does not touch the file system. *)

Module Config.
Section ConnectionOptions.
(** [parseInt] of the language, as a parameter; [None] is [NaN]. *)
Context (parseInt : string → option Z).

Record Ssl := mkSsl { rejectUnauthorized : bool }.

Record ConnectionOptions := mkConnectionOptions {
  host : string;
  port : option Z;
  database : string;
  username : string;
  password : string;
  ssl : option Ssl
}.

(** [v || d] for a variable of the environment: unset and empty are falsy. *)
Definition or_else (v : option string) (d : string) : string :=
  match v with
  | Some s => if decide (s = EmptyString) then d else s
  | None => d
  end.

(** [process.env] is a dictionary of strings; a variable that is not set
    reads as [undefined]. *)
Definition createConnectionOptions (env : gmap string string) : ConnectionOptions :=
  {| host := or_else (env !! "DB_HOST") "localhost";
     port := match env !! "DB_PORT" with
             | Some s => if decide (s = EmptyString) then Some 5432%Z
                         else parseInt s
             | None => Some 5432%Z
             end;
     database := or_else (env !! "DB_NAME") "postgres";
     username := or_else (env !! "DB_USER") "postgres";
     password := or_else (env !! "DB_PASS") "postgres";
     ssl := match env !! "DB_SSL_ENABLED" with
            | Some s => if decide (s = EmptyString) then None
                        else Some {| rejectUnauthorized := false |}
            | None => None
            end |}.

(** A variable of the environment that is set to a text that is not
    empty, and one that is not set or set to the empty text. *)
Definition set_to (env : gmap string string) (name value : string) : Prop :=
  env !! name = Some value ∧ value ≠ EmptyString.
Definition unset (env : gmap string string) (name : string) : Prop :=
  env !! name = None ∨ env !! name = Some EmptyString.
End ConnectionOptions.
End Config.

(** ** Sample inputs *)

Module Samples.
Import Archive.

(** Two selections that overlap on the field [from]. *)
Definition sel_amount : Handlers.ContextRequest :=
  {[ "amount" := Handlers.VBool true;
     "from" := Handlers.VObj {[ "id" := Handlers.VBool true ]} ]}.
Definition sel_from : Handlers.ContextRequest :=
  {[ "from" := Handlers.VObj {[ "name" := Handlers.VBool true;
                                "id" := Handlers.VBool false ]};
     "to" := Handlers.VBool true; "fee" := Handlers.VUndefined ]}.

(** A row given by its fields; a field that is not there reads as the
    empty text. *)
Definition row_of (fields : list (string * string)) : @Row string :=
  λ name, default EmptyString (obj_get name fields).

Definition extrinsic_min : @TableColumns string :=
  [("id", plain "text"); ("block_id", plain "text"); ("name", plain "text")].

Definition transfer : @Row string :=
  row_of [("id", "1-0"); ("block_id", "1"); ("name", "balances.transfer")].

Definition header1 : @Row string :=
  row_of [("id", "1"); ("height", "1"); ("hash", "0xaa"); ("parent_hash", "0x00");
          ("timestamp", "2022-01-01"); ("spec_version", "1")].

Definition block1 : @BlockData string :=
  {| header := header1; metadata := None; extrinsics := [transfer];
     calls := []; events := []; warnings := None; last := false |}.

Definition last_block : @BlockData string :=
  {| header := header1; metadata := None; extrinsics := [transfer];
     calls := []; events := []; warnings := None; last := true |}.

(** Three clients: one that accepts everything, one that refuses [BEGIN],
    one that refuses [COMMIT] and [ROLLBACK]. *)
Definition accepting : @Client string string :=
  {| history := []; respond := λ _ _, None |}.
Definition refusing_begin : @Client string string :=
  {| history := [];
     respond := λ _ q, if decide (text q = "BEGIN") then Some "connection lost"
                       else None |}.
Definition refusing_commit : @Client string string :=
  {| history := [];
     respond := λ _ q,
       if decide (text q = "COMMIT") then Some "commit failed"
       else if decide (text q = "ROLLBACK") then Some "rollback failed"
       else None |}.

Definition fresh_sink (c : @Client string string) : @PostgresSink string string :=
  PostgresSink_new id id c (Some []) None.

(** The text of a block, for the streaming writer. *)
Definition json (block : @BlockData string) : string :=
  if last block then "{last:true}" else "{last:false}".

(** A sink holding the rows of one block, with nothing sent yet. *)
Definition one_block : @PostgresSink string string :=
  (append_block block1 (fresh_sink accepting)).2.

(** A streaming sink whose first [write] is suspended in [drain()]. *)
Definition waiting : @Stream.Runtime string :=
  Stream.run json (Stream.start None None) [Stream.Write block1 true].

(** Calls of [write] that never overlap, with a drain and an error. *)
Definition one_at_a_time : list (@Stream.event string string) :=
  [Stream.Write block1 true; Stream.EmitDrain; Stream.Write block1 true;
   Stream.EmitError "EPIPE"; Stream.Write last_block false].
(** A selection that asks for all [sel_amount] and [sel_from] ask for. *)
Definition sel_all : Handlers.ContextRequest :=
  {[ "amount" := Handlers.VBool true; "from" := Handlers.VBool true;
     "to" := Handlers.VBool true ]}.

(** A selection with own properties named like members of
    [Object.prototype]. *)
Definition sel_shadow : Handlers.ContextRequest :=
  {[ "toString" := Handlers.VBool false;
     "args" := Handlers.VObj {[ "valueOf" := Handlers.VBool true ]} ]}.

(** A registry without handlers, and one whose only event is named
    [toString]. *)
Definition no_handlers : Handlers.DataHandlers nat nat nat nat nat nat :=
  Handlers.mkDataHandlers [] [] ∅ ∅ ∅ ∅.

(** A table with a transformed column: the signature is stored between
    angle brackets. *)
Definition bracket (v : string) : string := "<" +:+ v +:+ ">".
Definition extrinsic_sig : @TableColumns string :=
  [("id", plain "text"); ("signature", mapped bracket "jsonb")].
Definition signed : @Row string :=
  row_of [("id", "1-0"); ("signature", "0xsig")].
Definition signed2 : @Row string :=
  row_of [("id", "1-1"); ("signature", "0xabc")].

(** Two registries with numbered handlers; both handle the event
    [Transfer] and the logs of the contract [0xabc]. *)
Definition registry1 : Handlers.DataHandlers nat nat nat nat nat nat :=
  Handlers.mkDataHandlers [1] []
    {[ "Transfer" := Handlers.mkHandlerList (Some sel_amount) [2] ]} ∅
    {[ "0xabc" := [Handlers.mkEvmLogEntry None None 3] ]} ∅.
Definition registry2 : Handlers.DataHandlers nat nat nat nat nat nat :=
  Handlers.mkDataHandlers [4] [5]
    {[ "Transfer" := Handlers.mkHandlerList (Some sel_from) [6] ]} ∅
    {[ "0xabc" := [Handlers.mkEvmLogEntry None (Some sel_from) 7] ]} ∅.

(** A sink with a progress tracker and no speed tracker. *)
Definition counting_sink : @PostgresSink string string :=
  PostgresSink_new id id accepting None (Some []).
End Samples.

(* ===================================================================== *)
(** * Part II: properties *)
(* ===================================================================== *)

(** ** The selection merge (handlers.ts) *)

Section keywise_maps.
Import Handlers Handlers.Keywise.
Context {T : Type} `{Nullable T}.
Implicit Types (a b : gmap string T) (f : T → T → T).

(** The two loops of [mergeMaps], read key by key. *)
Lemma lookup_mergeMaps a b f k :
  mergeMaps a b f !! k = merge_entry f (a !! k) (b !! k).
Proof.
  pose (F1 := λ (key : string) (va : T) (result : gmap string T),
    match b !! key with
    | Some vb => if is_null vb then <[key := va]> result
                 else <[key := f va vb]> result
    | None => <[key := va]> result
    end).
  pose (F2 := λ (key : string) (vb : T) (result : gmap string T),
    match a !! key with
    | Some va => if is_null va then <[key := vb]> result else result
    | None => <[key := vb]> result
    end).
  change (mergeMaps a b f) with (map_fold F2 (map_fold F1 ∅ a) b).
  assert (H1 : ∀ j, map_fold F1 ∅ a !! j =
            match a !! j with
            | Some va => Some (match b !! j with
                               | Some vb => if is_null vb then va else f va vb
                               | None => va end)
            | None => None
            end).
  { apply (map_fold_weak_ind (λ r m, ∀ j, r !! j = match m !! j with
            | Some va => Some (match b !! j with
                               | Some vb => if is_null vb then va else f va vb
                               | None => va end)
            | None => None end)).
    - intros j. by rewrite !lookup_empty.
    - intros i x m r Hi IH j. unfold F1.
      destruct (decide (i = j)) as [->|Hne].
      + rewrite lookup_insert_eq.
        destruct (b !! j) as [vb|]; [destruct (is_null vb)|];
          by rewrite lookup_insert_eq.
      + rewrite (lookup_insert_ne m) by done. rewrite <- IH.
        destruct (b !! i) as [vb|]; [destruct (is_null vb)|];
          by rewrite lookup_insert_ne. }
  generalize dependent (map_fold F1 ∅ a). intros r1 H1.
  assert (H2 : ∀ j, map_fold F2 r1 b !! j =
            match b !! j with
            | Some vb => match a !! j with
                         | Some va => if is_null va then Some vb else r1 !! j
                         | None => Some vb
                         end
            | None => r1 !! j
            end).
  { apply (map_fold_weak_ind (λ r m, ∀ j, r !! j = match m !! j with
            | Some vb => match a !! j with
                         | Some va => if is_null va then Some vb else r1 !! j
                         | None => Some vb
                         end
            | None => r1 !! j end)).
    - intros j. by rewrite lookup_empty.
    - intros i x m r Hi IH j. unfold F2.
      destruct (decide (i = j)) as [->|Hne].
      + rewrite lookup_insert_eq. specialize (IH j). rewrite Hi in IH.
        destruct (a !! j) as [va|]; [destruct (is_null va)|];
          by rewrite ?lookup_insert_eq.
      + rewrite (lookup_insert_ne m) by done. rewrite <- IH.
        destruct (a !! i) as [va|]; [destruct (is_null va)|];
          by rewrite ?lookup_insert_ne. }
  rewrite H2, H1. unfold merge_entry.
  destruct (a !! k) as [va|], (b !! k) as [vb|]; try done.
  by destruct (is_null va).
Qed.

(** The result has a property for every key of either input. *)
Lemma dom_mergeMaps a b f : dom (mergeMaps a b f) = dom a ∪ dom b.
Proof.
  apply set_eq. intros k.
  rewrite elem_of_union, !elem_of_dom, lookup_mergeMaps.
  unfold merge_entry.
  destruct (a !! k), (b !! k); split; intros; eauto;
    destruct_or?; by try match goal with H : is_Some None |- _ => destruct H end.
Qed.
End keywise_maps.

Section keywise_merge.
Import Handlers Handlers.Keywise.

Lemma vsize_lookup (m : gmap string value) k v :
  m !! k = Some v → vsize v < vsize (VObj m).
Proof.
  simpl. revert k v.
  apply (map_fold_weak_ind (λ n m', ∀ k v, m' !! k = Some v → vsize v < S n)).
  - intros k v. by rewrite lookup_empty.
  - intros i x m' n Hi IH k v. rewrite lookup_insert.
    case_decide as Hk.
    + intros [= ->]. lia.
    + intros Hv. specialize (IH _ _ Hv). lia.
Qed.

Lemma null_free_lookup (m : gmap string value) k v :
  null_free (VObj m) = true → m !! k = Some v → null_free v = true.
Proof.
  simpl. revert k v.
  apply (map_fold_weak_ind
    (λ ok m', ∀ k v, ok = true → m' !! k = Some v → null_free v = true)).
  - intros k v _. by rewrite lookup_empty.
  - intros i x m' ok Hi IH k v [Hx Hok]%andb_true_iff. rewrite lookup_insert.
    case_decide as Hk.
    + by intros [= <-].
    + eauto.
Qed.

(** [merge] on two values that passed the [== null] tests of [mergeMaps]. *)
Lemma merge_comm_defined n :
  ∀ fa fb, vsize fa ≤ n →
    null_free fa = true → null_free fb = true →
    is_null fa = false → is_null fb = false →
    merge fa fb = merge fb fa.
Proof.
  induction n as [n IH] using lt_wf_ind.
  intros fa fb Hn Hfa Hfb Hna Hnb.
  destruct fa as [| |[]|a], fb as [| |[]|b]; try done.
  simpl. f_equal. apply map_eq. intros k.
  rewrite !lookup_mergeMaps. unfold merge_entry.
  destruct (a !! k) as [va|] eqn:Ha, (b !! k) as [vb|] eqn:Hb; try done.
  f_equal.
  pose proof (null_free_lookup _ _ _ Hfa Ha) as Hva.
  pose proof (null_free_lookup _ _ _ Hfb Hb) as Hvb.
  pose proof (vsize_lookup _ _ _ Ha) as Hsz.
  destruct (is_null va) eqn:Ea, (is_null vb) eqn:Eb; try done.
  - destruct va, vb; done.
  - apply (IH (vsize va)); [lia|done..].
Qed.

(** Past its three early returns [merge] holds two objects. *)
Lemma merge_objects fa fb :
  is_true fa || is_true fb = false → truthy fa = true → truthy fb = true →
  ∃ a b, fa = VObj a ∧ fb = VObj b
         ∧ merge fa fb = VObj (mergeMaps a b merge).
Proof.
  destruct fa as [| |[]|a], fb as [| |[]|b]; try done. intros _ _ _.
  by exists a, b.
Qed.

Lemma merge_true_l X : merge (VBool true) X = VBool true.
Proof. done. Qed.

Lemma merge_true_r X : merge X (VBool true) = VBool true.
Proof. destruct X as [| |[]|?]; done. Qed.

Lemma merge_falsy_l f X : truthy f = false → merge f X = X.
Proof. destruct f as [| |[]|?], X as [| |[]|?]; done. Qed.

Lemma merge_falsy_r f X :
  truthy f = false → merge X f = if truthy X then X else f.
Proof. destruct f as [| |[]|?], X as [| |[]|?]; done. Qed.

Lemma is_null_falsy v : is_null v = true → truthy v = false.
Proof. by destruct v as [| |[]|?]. Qed.
End keywise_merge.

Section keywise_algebra.
Import Handlers Handlers.Keywise.

Lemma map_fold_andb {A} (p : string → A → bool) (m : gmap string A) :
  map_fold (λ k v ok, p k v && ok) true m = true
  ↔ ∀ k v, m !! k = Some v → p k v = true.
Proof.
  apply (map_fold_weak_ind (λ ok m', ok = true
           ↔ ∀ k v, m' !! k = Some v → p k v = true)).
  - split; [|done]. intros _ k v. by rewrite lookup_empty.
  - intros i x m' ok Hi IH. rewrite andb_true_iff, IH. split.
    + intros [Hx Hall] k v. rewrite lookup_insert. case_decide as Hk.
      * by intros [= <-]; subst.
      * apply Hall.
    + intros Hall. split.
      * apply (Hall i). by rewrite lookup_insert_eq.
      * intros k v Hkv. apply (Hall k). rewrite lookup_insert_ne; [done|].
        intros ->. congruence.
Qed.

Lemma merge_idem_size n : ∀ v, vsize v ≤ n → merge v v = v.
Proof.
  induction n as [n IH] using lt_wf_ind. intros v Hn.
  destruct v as [| |[]|a]; try done.
  simpl. f_equal. apply map_eq. intros k. rewrite lookup_mergeMaps.
  unfold merge_entry. destruct (a !! k) as [va|] eqn:Ha; [|done].
  f_equal. destruct (is_null va); [done|].
  pose proof (vsize_lookup _ _ _ Ha). apply (IH (vsize va)); lia.
Qed.

Lemma merge_nonnull fa fb :
  is_null fa = false → is_null fb = false → is_null (merge fa fb) = false.
Proof. by destruct fa as [| |[]|?], fb as [| |[]|?]. Qed.

Lemma merge_assoc_size n :
  ∀ a b c, vsize a ≤ n → merge (merge a b) c = merge a (merge b c).
Proof.
  induction n as [n IH] using lt_wf_ind. intros a b c Hn.
  destruct a as [| |[]|a], b as [| |[]|b], c as [| |[]|c]; try done.
  simpl. f_equal. apply map_eq. intros k. rewrite !lookup_mergeMaps.
  unfold merge_entry.
  destruct (a !! k) as [va|] eqn:Ha, (b !! k) as [vb|] eqn:Hb,
    (c !! k) as [vc|] eqn:Hc; try done.
  f_equal. pose proof (vsize_lookup _ _ _ Ha).
  destruct (is_null va) eqn:Ea, (is_null vb) eqn:Eb, (is_null vc) eqn:Ec;
    rewrite ?Ea, ?Eb, ?Ec, ?merge_nonnull by done; try done.
  apply (IH (vsize va)); lia.
Qed.

Lemma mergeMaps_merge_assoc (a b c : ContextRequest) :
  mergeMaps (mergeMaps a b merge) c merge = mergeMaps a (mergeMaps b c merge) merge.
Proof.
  pose proof (merge_assoc_size (vsize (VObj a)) (VObj a) (VObj b) (VObj c) (le_n _))
    as Hm.
  simpl in Hm. by injection Hm.
Qed.

Lemma mergeContextRequests_assoc (ta tb tc : option ContextRequest) :
  mergeContextRequests (mergeContextRequests ta tb) tc
  = mergeContextRequests ta (mergeContextRequests tb tc).
Proof.
  destruct ta as [a'|], tb as [b'|], tc as [c'|]; try done.
  simpl. f_equal. apply mergeMaps_merge_assoc.
Qed.

Lemma mergeMaps_assoc_objects {T} `{Nullable T} (f : T → T → T)
    (a b c : gmap string T) :
  (∀ x, is_null x = false) →
  (∀ x y z, f (f x y) z = f x (f y z)) →
  mergeMaps (mergeMaps a b f) c f = mergeMaps a (mergeMaps b c f) f.
Proof.
  intros Hnn Hf. apply map_eq. intros k. rewrite !lookup_mergeMaps.
  unfold merge_entry.
  destruct (a !! k) as [va|], (b !! k) as [vb|], (c !! k) as [vc|];
    rewrite ?Hnn; try done.
  by rewrite Hf.
Qed.

Lemma mergeMaps_empty_r {T} `{Nullable T} (f : T → T → T) (a : gmap string T) :
  mergeMaps a ∅ f = a.
Proof.
  apply map_eq. intros k. rewrite lookup_mergeMaps, lookup_empty.
  unfold merge_entry. by destruct (a !! k).
Qed.

Lemma mergeMaps_empty_l {T} `{Nullable T} (f : T → T → T) (a : gmap string T) :
  mergeMaps ∅ a f = a.
Proof.
  apply map_eq. intros k. by rewrite lookup_mergeMaps, lookup_empty.
Qed.

Lemma mergeHandlerLists_assoc {H} (x y z : HandlerList H) :
  mergeHandlerLists (mergeHandlerLists x y) z
  = mergeHandlerLists x (mergeHandlerLists y z).
Proof.
  unfold mergeHandlerLists. simpl.
  by rewrite mergeContextRequests_assoc, app_assoc.
Qed.

Lemma covers_refl_size n : ∀ v, vsize v ≤ n → covers v v = true.
Proof.
  induction n as [n IH] using lt_wf_ind. intros v Hn.
  destruct v as [| |[]|m]; try done.
  simpl. apply map_fold_andb. intros k v Hk. unfold get. rewrite Hk. simpl.
  pose proof (vsize_lookup _ _ _ Hk). apply (IH (vsize v)); lia.
Qed.

Lemma covers_refl v : covers v v = true.
Proof. by apply (covers_refl_size (vsize v)). Qed.

Lemma covers_obj (big : value) (n : ContextRequest) :
  covers big (VObj n) = true ↔
  big = VBool true
  ∨ ∃ m, big = VObj m ∧ ∀ k v, n !! k = Some v → covers (get m k) v = true.
Proof.
  destruct big as [| |[]|m]; simpl.
  - split; [done|]. by intros [?|(? & ? & _)].
  - split; [done|]. by intros [?|(? & ? & _)].
  - split; [by left|done].
  - split; [done|]. by intros [?|(? & ? & _)].
  - rewrite map_fold_andb. split.
    + intros Hall. right. by exists m.
    + intros [?|(m' & [= <-] & Hall)]; done.
Qed.

Lemma covers_falsy big small : truthy small = false → covers big small = true.
Proof. by destruct small as [| |[]|?]. Qed.

Lemma merge_covers_size n :
  ∀ a b, vsize a ≤ n →
    covers (merge a b) a = true ∧ covers (merge a b) b = true.
Proof.
  induction n as [n IH] using lt_wf_ind. intros a b Hn.
  destruct a as [| |[]|a], b as [| |[]|b]; try done;
    try (split; [done|apply covers_refl]);
    try (split; [apply covers_refl|done]).
  change (merge (VObj a) (VObj b)) with (VObj (mergeMaps a b merge)).
  split; apply covers_obj; right; eexists; (split; [done|]);
    intros k v Hk; unfold get; rewrite lookup_mergeMaps, Hk; unfold merge_entry.
  - pose proof (vsize_lookup _ _ _ Hk).
    destruct (b !! k) as [vb|]; simpl; [|apply covers_refl].
    destruct (is_null v) eqn:Ev.
    { apply covers_falsy. by destruct v as [| |[]|?]. }
    destruct (is_null vb); [apply covers_refl|].
    apply (IH (vsize v)); lia.
  - destruct (a !! k) as [va|] eqn:Ha; simpl; [|apply covers_refl].
    pose proof (vsize_lookup _ _ _ Ha).
    destruct (is_null va); [apply covers_refl|].
    destruct (is_null v) eqn:Ev.
    { apply covers_falsy. by destruct v as [| |[]|?]. }
    apply (IH (vsize va)); lia.
Qed.

Lemma merge_least_size n :
  ∀ a b c, vsize a ≤ n →
    covers c a = true → covers c b = true → covers c (merge a b) = true.
Proof.
  induction n as [n IH] using lt_wf_ind. intros a b c Hn Ha Hb.
  destruct a as [| |[]|a], b as [| |[]|b]; try done.
  change (merge (VObj a) (VObj b)) with (VObj (mergeMaps a b merge)).
  apply covers_obj in Ha as [->|(m & -> & Ha)]; [done|].
  apply covers_obj in Hb as [?|(m' & [= <-] & Hb)]; [done|].
  apply covers_obj. right. exists m. split; [done|].
  intros k v. rewrite lookup_mergeMaps. unfold merge_entry.
  destruct (a !! k) as [va|] eqn:Hka, (b !! k) as [vb|] eqn:Hkb;
    intros Hv; try done.
  - injection Hv as <-.
    destruct (is_null va); [by apply (Hb k)|].
    destruct (is_null vb); [by apply (Ha k)|].
    pose proof (vsize_lookup _ _ _ Hka).
    apply (IH (vsize va)); [lia|lia|by apply (Ha k)|by apply (Hb k)].
  - injection Hv as <-. by apply (Ha k).
  - injection Hv as <-. by apply (Hb k).
Qed.

Lemma mergeContextRequests_comm (ta tb : option ContextRequest) :
  tree_null_free ta = true → tree_null_free tb = true →
  mergeContextRequests ta tb = mergeContextRequests tb ta.
Proof.
  destruct ta as [a|], tb as [b|]; try done. simpl. intros Ha Hb. f_equal.
  pose proof (merge_comm_defined (vsize (VObj a)) (VObj a) (VObj b) (le_n _)
                Ha Hb eq_refl eq_refl) as Hm.
  simpl in Hm. by injection Hm.
Qed.

Lemma merged_lists_commute {H} (ma mb : gmap string (HandlerList H)) k :
  null_free_under k ma → null_free_under k mb →
  option_Forall2 same_plan (mergeMaps ma mb mergeHandlerLists !! k)
                           (mergeMaps mb ma mergeHandlerLists !! k).
Proof.
  intros Ha Hb. rewrite !lookup_mergeMaps. unfold merge_entry.
  destruct (ma !! k) as [la|] eqn:Hla, (mb !! k) as [lb|] eqn:Hlb; simpl;
    constructor; try done.
  split; simpl.
  - apply mergeContextRequests_comm; [by apply Ha|by apply Hb].
  - apply Permutation_app_comm.
Qed.

Context {BlockHandler EventHandler CallHandler EvmLogHandler
         ContractsContractEmittedHandler EvmTopicSet : Type}.
#[local] Abbreviation Registry :=
  (DataHandlers BlockHandler EventHandler CallHandler EvmLogHandler
                ContractsContractEmittedHandler EvmTopicSet).

Lemma mergeDataHandlers_assoc (a b c : Registry) :
  mergeDataHandlers (mergeDataHandlers a b) c
  = mergeDataHandlers a (mergeDataHandlers b c).
Proof.
  unfold mergeDataHandlers. simpl. f_equal.
  - by rewrite app_assoc.
  - by rewrite app_assoc.
  - apply mergeMaps_assoc_objects; [done|apply mergeHandlerLists_assoc].
  - apply mergeMaps_assoc_objects; [done|apply mergeHandlerLists_assoc].
  - apply mergeMaps_assoc_objects; [done|]. intros. by rewrite app_assoc.
  - apply mergeMaps_assoc_objects; [done|apply mergeHandlerLists_assoc].
Qed.
End keywise_algebra.

(** ** The code and the key-wise merge *)

Section refinement.
Import Handlers.

Lemma fold_Ok {A B} (G : string → A → outcome B → outcome B)
    (F : string → A → B → B) (m : gmap string A) (r : B) :
  (∀ k x r', m !! k = Some x → G k x (Ok r') = Ok (F k x r')) →
  map_fold G (Ok r) m = Ok (map_fold F r m).
Proof.
  intros HG. rewrite !map_fold_foldr.
  assert (Hin : ∀ k x, (k, x) ∈ map_to_list m → m !! k = Some x)
    by (intros; by apply elem_of_map_to_list).
  induction (map_to_list m) as [|[k x] l IH]; simpl; [done|].
  rewrite IH.
  - apply HG, Hin, elem_of_cons. by left.
  - intros k' x' Hk'. apply Hin, elem_of_cons. by right.
Qed.

Lemma plain_keys_spec {T} (o : gmap string T) :
  plain_keys o = true ↔ ∀ key, key ∈ Object_prototype → o !! key = None.
Proof.
  unfold plain_keys. rewrite forallb_forall. split.
  - intros Hall key Hk%list_elem_of_In. specialize (Hall _ Hk).
    by destruct (o !! key).
  - intros Hall key Hk%list_elem_of_In. by rewrite (Hall _ Hk).
Qed.

Lemma plain_keys_lookup {T} (o : gmap string T) key x :
  plain_keys o = true → o !! key = Some x → key ∉ Object_prototype.
Proof.
  intros Hp Hx Hin. rewrite plain_keys_spec in Hp.
  rewrite (Hp _ Hin) in Hx. discriminate.
Qed.

Lemma read_own {T} (o : gmap string T) key x :
  o !! key = Some x → read o key = Some (Own x).
Proof. unfold read. by intros ->. Qed.

Lemma read_missing {T} (o : gmap string T) key :
  o !! key = None → key ∉ Object_prototype → read o key = None.
Proof. unfold read. intros -> Hk. by rewrite bool_decide_eq_false_2. Qed.

Lemma read_inherited {T} (o : gmap string T) key :
  o !! key = None → key ∈ Object_prototype → read o key = Some (Inherited key).
Proof. unfold read. intros -> Hk. by rewrite bool_decide_eq_true_2. Qed.

Lemma assign_insert {T} `{Prototypal T} key (x : T) result :
  key ≠ "__proto__" → assign key x result = Ok (<[key := x]> result).
Proof. unfold assign. intros Hk. by rewrite decide_False. Qed.

Lemma proto_in_prototype : "__proto__" ∈ Object_prototype.
Proof. by apply (bool_decide_unpack _). Qed.

(** Where every key that is the name of a member of [Object.prototype]
    is an own key of both dictionaries or of none, and ["__proto__"] is
    no key, [mergeMaps] is the key-wise merge. *)
Lemma mergeMaps_keywise {T} `{Nullable T} `{Prototypal T}
    (a b : gmap string T) (mergeItems : T → item T → outcome T)
    (f : T → T → T) :
  (∀ key va, a !! key = Some va →
     key ≠ "__proto__" ∧ (key ∈ Object_prototype → is_Some (b !! key))) →
  (∀ key vb, b !! key = Some vb →
     key ≠ "__proto__" ∧ (key ∈ Object_prototype → is_Some (a !! key))) →
  (∀ key va vb, a !! key = Some va → b !! key = Some vb →
     is_null vb = false → mergeItems va (Own vb) = Ok (f va vb)) →
  mergeMaps a b mergeItems = Ok (Keywise.mergeMaps a b f).
Proof.
  intros Ha Hb Hf. unfold mergeMaps, Keywise.mergeMaps.
  erewrite fold_Ok; [simpl; apply fold_Ok|].
  - intros key vb r Hvb. simpl. destruct (Hb _ _ Hvb) as [Hne Hin].
    destruct (a !! key) as [va|] eqn:Hva.
    + rewrite (read_own _ _ _ Hva). destruct (is_null va); [|done].
      by apply assign_insert.
    + rewrite read_missing; [by apply assign_insert|done|].
      intros Hk. by destruct (Hin Hk).
  - intros key va r Hva. simpl. destruct (Ha _ _ Hva) as [Hne Hin].
    destruct (b !! key) as [vb|] eqn:Hvb.
    + rewrite (read_own _ _ _ Hvb). destruct (is_null vb) eqn:Hn.
      * by apply assign_insert.
      * rewrite (Hf _ _ _ Hva Hvb Hn). simpl. by apply assign_insert.
    + rewrite read_missing; [by apply assign_insert|done|].
      intros Hk. by destruct (Hin Hk).
Qed.

Lemma mergeMaps_plain {T} `{Nullable T} `{Prototypal T}
    (a b : gmap string T) (mergeItems : T → item T → outcome T)
    (f : T → T → T) :
  plain_keys a = true → plain_keys b = true →
  (∀ key va vb, a !! key = Some va → b !! key = Some vb →
     is_null vb = false → mergeItems va (Own vb) = Ok (f va vb)) →
  mergeMaps a b mergeItems = Ok (Keywise.mergeMaps a b f).
Proof.
  intros Ha Hb. apply mergeMaps_keywise.
  - intros key va Hva. pose proof (plain_keys_lookup _ _ _ Ha Hva) as Hk.
    split; [|done]. intros ->. apply Hk, proto_in_prototype.
  - intros key vb Hvb. pose proof (plain_keys_lookup _ _ _ Hb Hvb) as Hk.
    split; [|done]. intros ->. apply Hk, proto_in_prototype.
Qed.

Lemma plain_keys_mergeMaps {T} `{Nullable T} (a b : gmap string T) f :
  plain_keys a = true → plain_keys b = true →
  plain_keys (Keywise.mergeMaps a b f) = true.
Proof.
  rewrite !plain_keys_spec. intros Ha Hb key Hk.
  rewrite lookup_mergeMaps, (Ha _ Hk), (Hb _ Hk). done.
Qed.

Lemma plain_obj (m : ContextRequest) :
  plain_selection (VObj m) = true
  ↔ plain_keys m = true ∧ ∀ k v, m !! k = Some v → plain_selection v = true.
Proof.
  simpl. rewrite andb_true_iff.
  by rewrite (map_fold_andb (λ _ v, plain_selection v)).
Qed.

Lemma proto_free_obj (m : ContextRequest) :
  proto_free (VObj m) = true
  ↔ m !! "__proto__" = None ∧ ∀ k v, m !! k = Some v → proto_free v = true.
Proof.
  simpl. rewrite andb_true_iff, (map_fold_andb (λ _ v, proto_free v)).
  destruct (m !! "__proto__"); intuition congruence.
Qed.

Lemma merge_obj (a b : ContextRequest) :
  merge (VObj a) (Own (VObj b)) = VObj <$> mergeMaps a b merge.
Proof. done. Qed.

(** On selections with plain keys [merge] is the key-wise merge. *)
Lemma merge_keywise_size n :
  ∀ fa fb, vsize fa ≤ n → plain_selection fa = true → plain_selection fb = true →
    merge fa (Own fb) = Ok (Keywise.merge fa fb).
Proof.
  induction n as [n IH] using lt_wf_ind. intros fa fb Hn Hfa Hfb.
  destruct fa as [| |[]|a], fb as [| |[]|b]; try done.
  rewrite merge_obj. apply plain_obj in Hfa as [Hka Hva].
  apply plain_obj in Hfb as [Hkb Hvb].
  rewrite (mergeMaps_plain a b merge Keywise.merge); [done..|].
  intros key va vb Ha Hb _. pose proof (vsize_lookup _ _ _ Ha).
  apply (IH (vsize va)); [lia|lia|by eapply Hva|by eapply Hvb].
Qed.

Lemma merge_keywise fa fb :
  plain_selection fa = true → plain_selection fb = true →
  merge fa (Own fb) = Ok (Keywise.merge fa fb).
Proof. by apply (merge_keywise_size (vsize fa)). Qed.

Lemma plain_merge_size n :
  ∀ fa fb, vsize fa ≤ n → plain_selection fa = true → plain_selection fb = true →
    plain_selection (Keywise.merge fa fb) = true.
Proof.
  induction n as [n IH] using lt_wf_ind. intros fa fb Hn Hfa Hfb.
  destruct fa as [| |[]|a], fb as [| |[]|b]; try done.
  change (Keywise.merge (VObj a) (VObj b))
    with (VObj (Keywise.mergeMaps a b Keywise.merge)).
  apply plain_obj in Hfa as [Hka Hva]. apply plain_obj in Hfb as [Hkb Hvb].
  apply plain_obj. split; [by apply plain_keys_mergeMaps|].
  intros k v. rewrite lookup_mergeMaps. unfold merge_entry.
  destruct (a !! k) as [va|] eqn:Ha, (b !! k) as [vb|] eqn:Hb;
    intros Hv; try done; injection Hv as <-.
  - destruct (is_null va); [by eapply Hvb|].
    destruct (is_null vb); [by eapply Hva|].
    pose proof (vsize_lookup _ _ _ Ha).
    apply (IH (vsize va)); [lia|lia|by eapply Hva|by eapply Hvb].
  - by eapply Hva.
  - by eapply Hvb.
Qed.

Lemma plain_merge fa fb :
  plain_selection fa = true → plain_selection fb = true → plain_selection (Keywise.merge fa fb) = true.
Proof. by apply (plain_merge_size (vsize fa)). Qed.

Lemma mergeContextRequests_keywise (ta tb : option ContextRequest) :
  plain_tree ta = true → plain_tree tb = true →
  mergeContextRequests ta tb = Ok (Keywise.mergeContextRequests ta tb)
  ∧ plain_tree (Keywise.mergeContextRequests ta tb) = true.
Proof.
  destruct ta as [a|], tb as [b|]; try done. intros Ha Hb.
  pose proof (merge_keywise _ _ Ha Hb) as Hm. rewrite merge_obj in Hm.
  pose proof (plain_merge _ _ Ha Hb) as Hp.
  split; [|exact Hp]. simpl.
  destruct (mergeMaps a b merge) as [r|]; [|done].
  simpl in Hm. by injection Hm as ->.
Qed.

(** With itself as second argument [merge] never reads the prototype
    chain: every key it looks up is an own key. *)
Lemma merge_self_size n :
  ∀ v, vsize v ≤ n → proto_free v = true →
    merge v (Own v) = Ok (Keywise.merge v v).
Proof.
  induction n as [n IH] using lt_wf_ind. intros v Hn Hv.
  destruct v as [| |[]|a]; try done.
  rewrite merge_obj. apply proto_free_obj in Hv as [Hp Hv].
  rewrite (mergeMaps_keywise a a merge Keywise.merge); [done|..].
  - intros key va Hva. split; [|by eauto]. intros ->. congruence.
  - intros key va Hva. split; [|by eauto]. intros ->. congruence.
  - intros key va vb Ha Hb _. assert (vb = va) as -> by congruence.
    pose proof (vsize_lookup _ _ _ Ha).
    apply (IH (vsize va)); [lia|lia|by eapply Hv].
Qed.
End refinement.

Section registry_refinement.
Import Handlers.

Lemma plain_lists_spec {H} (m : gmap string (HandlerList H)) :
  plain_lists m = true
  ↔ plain_keys m = true ∧ ∀ k l, m !! k = Some l → plain_tree (data l) = true.
Proof.
  unfold plain_lists. rewrite andb_true_iff.
  by rewrite (map_fold_andb (λ _ l, plain_tree (data l))).
Qed.

Lemma mergeHandlerLists_keywise {H} (la lb : HandlerList H) :
  plain_tree (data la) = true → plain_tree (data lb) = true →
  mergeHandlerLists la (Own lb) = Ok (Keywise.mergeHandlerLists la lb).
Proof.
  intros Ha Hb. unfold mergeHandlerLists, Keywise.mergeHandlerLists.
  by destruct (mergeContextRequests_keywise _ _ Ha Hb) as [-> _].
Qed.

Lemma lists_keywise {H} (ma mb : gmap string (HandlerList H)) :
  plain_lists ma = true → plain_lists mb = true →
  mergeMaps ma mb mergeHandlerLists
  = Ok (Keywise.mergeMaps ma mb Keywise.mergeHandlerLists)
  ∧ plain_lists (Keywise.mergeMaps ma mb Keywise.mergeHandlerLists) = true.
Proof.
  intros [Hka Hda]%plain_lists_spec [Hkb Hdb]%plain_lists_spec. split.
  - apply mergeMaps_plain; [done..|]. intros key la lb Hla Hlb _.
    apply mergeHandlerLists_keywise; [by eapply Hda|by eapply Hdb].
  - apply plain_lists_spec. split; [by apply plain_keys_mergeMaps|].
    intros k l. rewrite lookup_mergeMaps. unfold merge_entry.
    destruct (ma !! k) as [la|] eqn:Ha, (mb !! k) as [lb|] eqn:Hb;
      intros Hl; try done; injection Hl as <-; simpl.
    + by apply mergeContextRequests_keywise; [eapply Hda|eapply Hdb].
    + by eapply Hda.
    + by eapply Hdb.
Qed.

Lemma concat_keywise {A} (ma mb : gmap string (list A)) :
  plain_keys ma = true → plain_keys mb = true →
  mergeMaps ma mb concat = Ok (Keywise.mergeMaps ma mb (λ ha hb, ha ++ hb)).
Proof. intros Ha Hb. by apply mergeMaps_plain. Qed.

Lemma mergeMaps_empty_plain {T} `{Nullable T} `{Prototypal T}
    (a : gmap string T) (mergeItems : T → item T → outcome T) :
  plain_keys a = true →
  mergeMaps a ∅ mergeItems = Ok a ∧ mergeMaps ∅ a mergeItems = Ok a.
Proof.
  intros Ha. split.
  - rewrite (mergeMaps_plain a ∅ mergeItems (λ x _, x)); [|done..].
    by rewrite mergeMaps_empty_r.
  - rewrite (mergeMaps_plain ∅ a mergeItems (λ x _, x)); [|done..].
    by rewrite mergeMaps_empty_l.
Qed.

Context {BlockHandler EventHandler CallHandler EvmLogHandler
         ContractsContractEmittedHandler EvmTopicSet : Type}.
#[local] Abbreviation Registry :=
  (DataHandlers BlockHandler EventHandler CallHandler EvmLogHandler
                ContractsContractEmittedHandler EvmTopicSet).

Lemma plain_registry_spec (r : Registry) :
  plain_registry r = true
  ↔ plain_lists (events r) = true ∧ plain_lists (calls r) = true
    ∧ plain_keys (evmLogs r) = true
    ∧ plain_lists (contractsContractEmitted r) = true.
Proof. unfold plain_registry. rewrite !andb_true_iff. tauto. Qed.

(** On registries with plain keys [mergeDataHandlers] is the key-wise
    merge, and its result has plain keys again. *)
Lemma mergeDataHandlers_keywise (a b : Registry) :
  plain_registry a = true → plain_registry b = true →
  mergeDataHandlers a b = Ok (Keywise.mergeDataHandlers a b)
  ∧ plain_registry (Keywise.mergeDataHandlers a b) = true.
Proof.
  intros (Hea & Hca & Hla & Hka)%plain_registry_spec
         (Heb & Hcb & Hlb & Hkb)%plain_registry_spec.
  destruct (lists_keywise _ _ Hea Heb) as [He He'].
  destruct (lists_keywise _ _ Hca Hcb) as [Hc Hc'].
  destruct (lists_keywise _ _ Hka Hkb) as [Hk Hk'].
  pose proof (concat_keywise _ _ Hla Hlb) as Hl.
  split.
  - unfold mergeDataHandlers. by rewrite He, Hc, Hl, Hk.
  - apply plain_registry_spec. simpl. repeat split; try done.
    by apply plain_keys_mergeMaps.
Qed.
End registry_refinement.

(** ** The selection merge (handlers.ts): properties *)

Section merge_theorems.
Import Handlers Samples.

(** What [null] beside [undefined] does to the order of the arguments:
    the second loop of [mergeMaps] overwrites with the second map's
    entry. *)
Example mergeMaps_null_undefined :
  mergeMaps {["k" := VNull]} {["k" := VUndefined]} merge
  = Ok {["k" := VUndefined]}
  ∧ mergeMaps {["k" := VUndefined]} {["k" := VNull]} merge
    = Ok {["k" := VNull]}.
Proof. by vm_compute. Qed.

(** C3, the claim as stated fails: the field merge is not commutative on
    all partial mappings.  With a key named like a member of
    [Object.prototype] on one side only, [mergeMaps] keeps the key when
    it comes with the first argument (the read [b[key]] finds the
    inherited member, and [merge(true, member)] is [true]) and drops it
    when it comes with the second (the read [a?.[key]] finds the
    inherited member, so the key counts as taken); the same through
    [mergeContextRequests], one level down.  And with [null] beside
    [undefined] under one key the second argument's value wins. *)
Lemma mergeField_commutativity_fails_on_inherited_key :
  merge (VObj {[ "valueOf" := VBool true ]}) (Own (VObj ∅))
  = Ok (VObj {[ "valueOf" := VBool true ]})
  ∧ merge (VObj ∅) (Own (VObj {[ "valueOf" := VBool true ]})) = Ok (VObj ∅)
  ∧ mergeContextRequests
      (Some {[ "event" := VObj {[ "valueOf" := VBool true ]} ]})
      (Some {[ "event" := VObj ∅ ]})
    = Ok (Some {[ "event" := VObj {[ "valueOf" := VBool true ]} ]})
  ∧ mergeContextRequests
      (Some {[ "event" := VObj ∅ ]})
      (Some {[ "event" := VObj {[ "valueOf" := VBool true ]} ]})
    = Ok (Some {[ "event" := VObj ∅ ]})
  ∧ merge (VObj {[ "k" := VNull ]}) (Own (VObj {[ "k" := VUndefined ]}))
    = Ok (VObj {[ "k" := VUndefined ]})
  ∧ merge (VObj {[ "k" := VUndefined ]}) (Own (VObj {[ "k" := VNull ]}))
    = Ok (VObj {[ "k" := VNull ]}).
Proof. by vm_compute. Qed.



Lemma code_merge_true_r X : merge X (Own (VBool true)) = Ok (VBool true).
Proof. destruct X as [| |[]|?]; done. Qed.

Lemma code_merge_falsy_l f X : truthy f = false → merge f (Own X) = Ok X.
Proof. destruct f as [| |[]|?], X as [| |[]|?]; done. Qed.

Lemma code_merge_falsy_r f X :
  truthy f = false → merge X (Own f) = Ok (if truthy X then X else f).
Proof. destruct f as [| |[]|?], X as [| |[]|?]; done. Qed.

(** C3 (amended).  Field-level merge, as [mergeMaps] calls it.  [true] merged with
    anything, in either order, is [true].  An absent value ([undefined]
    or [null]) as first argument gives the second.  [merge] is never
    called with an absent second argument: under a key that is no member
    of [Object.prototype], a value [X] beside a missing key stays [X], and
    beside an absent value it stays [X] when [X] is not itself nullish,
    in both orders.  On two partial mappings with plain keys (none, at
    any depth, is the name of a member of [Object.prototype]) and no
    [null] the merge gives the same map in both argument orders. *)
Theorem mergeField_laws (X absent : value) (fb : item value)
    (a b : ContextRequest) (key : string) :
  is_null absent = true →
  key ∉ Object_prototype →
  plain_selection (VObj a) = true → plain_selection (VObj b) = true →
  null_free (VObj a) = true → null_free (VObj b) = true →
  merge (VBool true) fb = Ok (VBool true)
  ∧ merge X (Own (VBool true)) = Ok (VBool true)
  ∧ merge absent (Own X) = Ok X
  ∧ mergeMaps {[key := X]} ∅ merge = Ok {[key := X]}
  ∧ mergeMaps ∅ {[key := X]} merge = Ok {[key := X]}
  ∧ (is_null X = false →
     mergeMaps {[key := X]} {[key := absent]} merge = Ok {[key := X]}
     ∧ mergeMaps {[key := absent]} {[key := X]} merge = Ok {[key := X]})
  ∧ ∃ r, merge (VObj a) (Own (VObj b)) = Ok r
         ∧ merge (VObj b) (Own (VObj a)) = Ok r.
Proof.
  intros Habs Hkey Ha Hb Hna Hnb.
  assert (Hne : key ≠ "__proto__").
  { intros ->. apply Hkey, proto_in_prototype. }
  assert (Hone : ∀ Y Z : value,
    (∀ k va, ({[key := Y]} : ContextRequest) !! k = Some va →
       k ≠ "__proto__" ∧ (k ∈ Object_prototype →
         is_Some (({[key := Z]} : ContextRequest) !! k)))).
  { intros Y Z k va [<- _]%lookup_singleton_Some. by split. }
  assert (Hnil : ∀ Y : value,
    (∀ k va, ({[key := Y]} : ContextRequest) !! k = Some va →
       k ≠ "__proto__" ∧ (k ∈ Object_prototype →
         is_Some ((∅ : ContextRequest) !! k)))).
  { intros Y k va [<- _]%lookup_singleton_Some. by split. }
  split; [by destruct fb|]. split; [apply code_merge_true_r|].
  split; [by apply code_merge_falsy_l, is_null_falsy|].
  split.
  { rewrite (mergeMaps_keywise _ _ _ Keywise.merge); [|by apply Hnil|done..].
    by rewrite mergeMaps_empty_r. }
  split.
  { rewrite (mergeMaps_keywise _ _ _ Keywise.merge); [|done|by apply Hnil|done].
    by rewrite mergeMaps_empty_l. }
  split.
  - intros HX. split.
    + rewrite (mergeMaps_keywise _ _ _ Keywise.merge); [|by apply Hone..|].
      * f_equal. apply map_eq. intros k. rewrite lookup_mergeMaps.
        destruct (decide (k = key)) as [->|Hk].
        -- rewrite !lookup_singleton_eq. simpl. by rewrite HX, Habs.
        -- by rewrite !lookup_singleton_ne.
      * intros k va vb [_ <-]%lookup_singleton_Some [_ <-]%lookup_singleton_Some.
        congruence.
    + rewrite (mergeMaps_keywise _ _ _ Keywise.merge); [|by apply Hone..|].
      * f_equal. apply map_eq. intros k. rewrite lookup_mergeMaps.
        destruct (decide (k = key)) as [->|Hk].
        -- rewrite !lookup_singleton_eq. simpl. by rewrite Habs.
        -- by rewrite !lookup_singleton_ne.
      * intros k va vb [_ <-]%lookup_singleton_Some [_ <-]%lookup_singleton_Some _.
        rewrite code_merge_falsy_l by (by apply is_null_falsy).
        by rewrite merge_falsy_l by (by apply is_null_falsy).
  - exists (Keywise.merge (VObj a) (VObj b)).
    split; [by apply merge_keywise|].
    rewrite merge_keywise by done. f_equal. symmetry.
    by apply (merge_comm_defined (vsize (VObj a))).
Qed.

Lemma mergeField_laws_witness :
  is_null VUndefined = true
  ∧ ("from" ∉ Object_prototype)
  ∧ plain_selection (VObj sel_amount) = true ∧ plain_selection (VObj sel_from) = true
  ∧ null_free (VObj sel_amount) = true ∧ null_free (VObj sel_from) = true
  ∧ mergeMaps {[ "from" := VObj sel_amount ]} {[ "from" := VUndefined ]} merge
    = Ok {[ "from" := VObj sel_amount ]}
  ∧ ∃ r, merge (VObj sel_amount) (Own (VObj sel_from)) = Ok r
         ∧ merge (VObj sel_from) (Own (VObj sel_amount)) = Ok r.
Proof.
  assert (Hn : is_null VUndefined = true) by reflexivity.
  assert (Hk : "from" ∉ Object_prototype) by (by apply (bool_decide_unpack _)).
  assert (Hpa : plain_selection (VObj sel_amount) = true) by (vm_compute; reflexivity).
  assert (Hpb : plain_selection (VObj sel_from) = true) by (vm_compute; reflexivity).
  assert (Ha : null_free (VObj sel_amount) = true) by (vm_compute; reflexivity).
  assert (Hb : null_free (VObj sel_from) = true) by (vm_compute; reflexivity).
  destruct (mergeField_laws (VObj sel_amount) VUndefined (Own VUndefined)
              sel_amount sel_from "from" Hn Hk Hpa Hpb Ha Hb)
    as (_ & _ & _ & _ & _ & Hid & Hcomm).
  split; [exact Hn|]. split; [exact Hk|]. split; [exact Hpa|].
  split; [exact Hpb|]. split; [exact Ha|]. split; [exact Hb|].
  split; [apply Hid; reflexivity|exact Hcomm].
Defined.

(** C10, the claim as stated fails: with the falsy value [false] as
    second argument and [X = undefined], the merge returns [false]. *)
Lemma falsy_merge_fails_on_undefined :
  truthy (VBool false) = false
  ∧ merge VUndefined (Own (VBool false)) = Ok (VBool false)
  ∧ merge VUndefined (Own (VBool false)) ≠ Ok VUndefined.
Proof. by repeat split. Qed.

(** C10 (amended).  A falsy field value [f] ([false], [null] or
    [undefined]) counts as an absent selection: for every [X],
    [merge f X] is [X]; [merge X f] is [X] when [X] is truthy, and is [f]
    when [X] is falsy as well.  Hence a truthy selection of the other
    handler is never restricted or suppressed by [false]. *)
Theorem falsy_field_is_absent (f X : value) :
  truthy f = false →
  merge f (Own X) = Ok X
  ∧ merge X (Own f) = Ok (if truthy X then X else f).
Proof.
  intros Hf. split; [by apply code_merge_falsy_l | by apply code_merge_falsy_r].
Qed.

Lemma falsy_field_is_absent_witness :
  truthy (VBool false) = false
  ∧ merge (VBool false) (Own (VObj sel_amount)) = Ok (VObj sel_amount)
  ∧ merge (VObj sel_amount) (Own (VBool false)) = Ok (VObj sel_amount).
Proof.
  assert (Hf : truthy (VBool false) = false) by reflexivity.
  split; [exact Hf|].
  exact (falsy_field_is_absent (VBool false) (VObj sel_amount) Hf).
Defined.

(** An own property named ["__proto__"] is lost in the merge of a
    selection with itself: the assignment [result[key] = ...] runs the
    setter of [Object.prototype]. *)
Example merge_self_loses___proto__ :
  merge (VObj {[ "__proto__" := VBool true; "args" := VBool true ]})
        (Own (VObj {[ "__proto__" := VBool true; "args" := VBool true ]}))
  = Ok (VObj {[ "args" := VBool true ]}).
Proof. by vm_compute. Qed.

(** X1.  Merging a selection value with itself gives it back, at field
    level and for whole selection trees (an absent tree included),
    whatever its keys, provided no object in it has an own property named
    ["__proto__"]. *)
Theorem merge_idempotent (v : value) (t : option ContextRequest) :
  proto_free v = true → proto_free_tree t = true →
  merge v (Own v) = Ok v ∧ mergeContextRequests t t = Ok t.
Proof.
  intros Hv Ht. split.
  - rewrite (merge_self_size (vsize v)) by done.
    by rewrite (merge_idem_size (vsize v)).
  - destruct t as [a|]; [|done].
    pose proof (merge_self_size _ (VObj a) (le_n _) Ht) as Hm.
    rewrite (merge_idem_size (vsize (VObj a))), merge_obj in Hm by done.
    simpl. destruct (mergeMaps a a merge) as [r|]; [|done].
    simpl in Hm. by injection Hm as ->.
Qed.

Lemma merge_idempotent_witness :
  proto_free (VObj sel_shadow) = true
  ∧ proto_free_tree (Some sel_shadow) = true
  ∧ merge (VObj sel_shadow) (Own (VObj sel_shadow)) = Ok (VObj sel_shadow)
  ∧ mergeContextRequests (Some sel_shadow) (Some sel_shadow)
    = Ok (Some sel_shadow).
Proof.
  assert (Hv : proto_free (VObj sel_shadow) = true) by (vm_compute; reflexivity).
  assert (Ht : proto_free_tree (Some sel_shadow) = true) by exact Hv.
  destruct (merge_idempotent (VObj sel_shadow) (Some sel_shadow) Hv Ht)
    as [Hm Hc].
  split; [exact Hv|]. split; [exact Ht|]. split; [exact Hm|exact Hc].
Defined.

(** X2.  On selections with plain keys (none, at any depth, is the name
    of a member of [Object.prototype]) the field merge and the tree
    merge are associative: neither order of merging three selections
    leaves the selection values, and both give the same result. *)
Theorem merge_associative (a b c : value) (ta tb tc : option ContextRequest) :
  plain_selection a = true → plain_selection b = true → plain_selection c = true →
  plain_tree ta = true → plain_tree tb = true → plain_tree tc = true →
  (∃ ab bc r, merge a (Own b) = Ok ab ∧ merge ab (Own c) = Ok r
              ∧ merge b (Own c) = Ok bc ∧ merge a (Own bc) = Ok r)
  ∧ ∃ tab tbc tr,
      mergeContextRequests ta tb = Ok tab
      ∧ mergeContextRequests tab tc = Ok tr
      ∧ mergeContextRequests tb tc = Ok tbc
      ∧ mergeContextRequests ta tbc = Ok tr.
Proof.
  intros Ha Hb Hc Hta Htb Htc. split.
  - exists (Keywise.merge a b), (Keywise.merge b c),
      (Keywise.merge (Keywise.merge a b) c).
    split; [by apply merge_keywise|].
    split; [by apply merge_keywise; [apply plain_merge|]|].
    split; [by apply merge_keywise|].
    rewrite (merge_assoc_size (vsize a)) by done.
    by apply merge_keywise; [|apply plain_merge].
  - destruct (mergeContextRequests_keywise _ _ Hta Htb) as [Hab Hpab].
    destruct (mergeContextRequests_keywise _ _ Htb Htc) as [Hbc Hpbc].
    destruct (mergeContextRequests_keywise _ _ Hpab Htc) as [Hr _].
    destruct (mergeContextRequests_keywise _ _ Hta Hpbc) as [Hr' _].
    eexists _, _, _. split; [exact Hab|]. split; [exact Hr|].
    split; [exact Hbc|]. by rewrite mergeContextRequests_assoc.
Qed.

Lemma merge_associative_witness :
  plain_selection (VObj sel_amount) = true ∧ plain_selection (VObj sel_from) = true
  ∧ plain_selection (VObj sel_all) = true
  ∧ ∃ ab bc r,
      merge (VObj sel_amount) (Own (VObj sel_from)) = Ok ab
      ∧ merge ab (Own (VObj sel_all)) = Ok r
      ∧ merge (VObj sel_from) (Own (VObj sel_all)) = Ok bc
      ∧ merge (VObj sel_amount) (Own bc) = Ok r.
Proof.
  assert (Ha : plain_selection (VObj sel_amount) = true) by (vm_compute; reflexivity).
  assert (Hb : plain_selection (VObj sel_from) = true) by (vm_compute; reflexivity).
  assert (Hc : plain_selection (VObj sel_all) = true) by (vm_compute; reflexivity).
  destruct (merge_associative (VObj sel_amount) (VObj sel_from) (VObj sel_all)
              (Some sel_amount) None None Ha Hb Hc Ha eq_refl eq_refl)
    as [Hm _].
  split; [exact Ha|]. split; [exact Hb|]. split; [exact Hc|exact Hm].
Defined.

(** X3.  On selections with plain keys the merge asks for everything
    either input asks for: every field selected by [a] or by [b], at any
    depth, is selected by the result. *)
Theorem merge_covers_inputs (a b : value) :
  plain_selection a = true → plain_selection b = true →
  ∃ r, merge a (Own b) = Ok r ∧ covers r a = true ∧ covers r b = true.
Proof.
  intros Ha Hb. exists (Keywise.merge a b).
  split; [by apply merge_keywise|]. by apply (merge_covers_size (vsize a)).
Qed.

Lemma merge_covers_inputs_witness :
  plain_selection (VObj sel_amount) = true ∧ plain_selection (VObj sel_from) = true
  ∧ ∃ r, merge (VObj sel_amount) (Own (VObj sel_from)) = Ok r
         ∧ covers r (VObj sel_amount) = true
         ∧ covers r (VObj sel_from) = true.
Proof.
  assert (Ha : plain_selection (VObj sel_amount) = true) by (vm_compute; reflexivity).
  assert (Hb : plain_selection (VObj sel_from) = true) by (vm_compute; reflexivity).
  split; [exact Ha|]. split; [exact Hb|].
  exact (merge_covers_inputs (VObj sel_amount) (VObj sel_from) Ha Hb).
Defined.

(** X4.  On selections with plain keys the merge asks for nothing more
    than the two inputs together: any selection that covers both inputs
    covers their merge. *)
Theorem merge_is_least (a b c : value) :
  plain_selection a = true → plain_selection b = true →
  covers c a = true → covers c b = true →
  ∃ r, merge a (Own b) = Ok r ∧ covers c r = true.
Proof.
  intros Ha Hb Hca Hcb. exists (Keywise.merge a b).
  split; [by apply merge_keywise|]. by apply (merge_least_size (vsize a)).
Qed.

Lemma merge_is_least_witness :
  plain_selection (VObj sel_amount) = true ∧ plain_selection (VObj sel_from) = true
  ∧ covers (VObj sel_all) (VObj sel_amount) = true
  ∧ covers (VObj sel_all) (VObj sel_from) = true
  ∧ ∃ r, merge (VObj sel_amount) (Own (VObj sel_from)) = Ok r
         ∧ covers (VObj sel_all) r = true.
Proof.
  assert (Hpa : plain_selection (VObj sel_amount) = true) by (vm_compute; reflexivity).
  assert (Hpb : plain_selection (VObj sel_from) = true) by (vm_compute; reflexivity).
  assert (Ha : covers (VObj sel_all) (VObj sel_amount) = true)
    by (vm_compute; reflexivity).
  assert (Hb : covers (VObj sel_all) (VObj sel_from) = true)
    by (vm_compute; reflexivity).
  split; [exact Hpa|]. split; [exact Hpb|]. split; [exact Ha|].
  split; [exact Hb|].
  exact (merge_is_least (VObj sel_amount) (VObj sel_from) (VObj sel_all)
           Hpa Hpb Ha Hb).
Defined.


End merge_theorems.

(** ** The registry merge (handlers.ts): properties *)

Section registry_theorems.
Import Handlers.
Context {BlockHandler EventHandler CallHandler EvmLogHandler
         ContractsContractEmittedHandler EvmTopicSet : Type}.
#[local] Abbreviation Registry :=
  (DataHandlers BlockHandler EventHandler CallHandler EvmLogHandler
                ContractsContractEmittedHandler EvmTopicSet).



(** X5.  Merging registries with plain keys is associative, handler
    order included: three registries merged in sequence give the same
    registry whichever two are merged first. *)
Theorem mergeDataHandlers_associative (a b c : Registry) :
  plain_registry a = true → plain_registry b = true →
  plain_registry c = true →
  ∃ ab bc r, mergeDataHandlers a b = Ok ab ∧ mergeDataHandlers ab c = Ok r
             ∧ mergeDataHandlers b c = Ok bc ∧ mergeDataHandlers a bc = Ok r.
Proof.
  intros Ha Hb Hc.
  destruct (mergeDataHandlers_keywise a b Ha Hb) as [Hab Hpab].
  destruct (mergeDataHandlers_keywise b c Hb Hc) as [Hbc Hpbc].
  destruct (mergeDataHandlers_keywise _ c Hpab Hc) as [Hr _].
  destruct (mergeDataHandlers_keywise a _ Ha Hpbc) as [Hr' _].
  eexists _, _, _. split; [exact Hab|]. split; [exact Hr|].
  split; [exact Hbc|]. by rewrite mergeDataHandlers_assoc.
Qed.

(** X6.  A registry without handlers is neutral on both sides of the
    merge, for a registry none of whose keys is the name of a member of
    [Object.prototype]. *)
Theorem mergeDataHandlers_empty (a : Registry) :
  plain_keys (events a) = true → plain_keys (calls a) = true →
  plain_keys (evmLogs a) = true →
  plain_keys (contractsContractEmitted a) = true →
  mergeDataHandlers a (mkDataHandlers [] [] ∅ ∅ ∅ ∅) = Ok a
  ∧ mergeDataHandlers (mkDataHandlers [] [] ∅ ∅ ∅ ∅) a = Ok a.
Proof.
  intros He Hc Hl Hk. destruct a as [pr po ev ca lo co]. simpl in *.
  unfold mergeDataHandlers. simpl.
  destruct (mergeMaps_empty_plain ev mergeHandlerLists He) as [-> ->].
  destruct (mergeMaps_empty_plain ca mergeHandlerLists Hc) as [-> ->].
  destruct (mergeMaps_empty_plain lo concat Hl) as [-> ->].
  destruct (mergeMaps_empty_plain co mergeHandlerLists Hk) as [-> ->].
  simpl. by rewrite !app_nil_r.
Qed.

(** X7.  For registries with plain keys: the [evmLogs] entries under a
    contract address are those of [a] followed by those of [b], each
    entry left as it is; and in each of the four maps of the merged
    registry the keys are exactly the keys of either input. *)
Theorem mergeDataHandlers_evmLogs (a b : Registry) (address : string) :
  plain_registry a = true → plain_registry b = true →
  ∃ r, mergeDataHandlers a b = Ok r
    ∧ evmLogs r !! address
      = match evmLogs a !! address, evmLogs b !! address with
        | Some ha, Some hb => Some (ha ++ hb)
        | Some ha, None => Some ha
        | None, hb => hb
        end
    ∧ dom (evmLogs r) = dom (evmLogs a) ∪ dom (evmLogs b)
    ∧ dom (events r) = dom (events a) ∪ dom (events b)
    ∧ dom (calls r) = dom (calls a) ∪ dom (calls b)
    ∧ dom (contractsContractEmitted r)
      = dom (contractsContractEmitted a) ∪ dom (contractsContractEmitted b).
Proof.
  intros Ha Hb. exists (Keywise.mergeDataHandlers a b).
  split; [by apply mergeDataHandlers_keywise|].
  split; [|simpl; by rewrite !dom_mergeMaps].
  simpl. rewrite lookup_mergeMaps. unfold merge_entry.
  by destruct (evmLogs a !! address), (evmLogs b !! address).
Qed.

(** X8.  Swapping two registries with plain keys changes only the order
    of the handlers: when no selection under [k] holds a [null], both
    orders give, under [k], the same selection and the same handlers up
    to a permutation, and the same block handlers up to a permutation. *)
Theorem mergeDataHandlers_commutes_up_to_order (a b : Registry) (k : string) :
  plain_registry a = true → plain_registry b = true →
  null_free_under k (events a) → null_free_under k (events b) →
  null_free_under k (calls a) → null_free_under k (calls b) →
  null_free_under k (contractsContractEmitted a) →
  null_free_under k (contractsContractEmitted b) →
  ∃ ab ba, mergeDataHandlers a b = Ok ab ∧ mergeDataHandlers b a = Ok ba
    ∧ pre ab ≡ₚ pre ba
    ∧ post ab ≡ₚ post ba
    ∧ option_Forall2 same_plan (events ab !! k) (events ba !! k)
    ∧ option_Forall2 same_plan (calls ab !! k) (calls ba !! k)
    ∧ option_Forall2 same_plan (contractsContractEmitted ab !! k)
                               (contractsContractEmitted ba !! k)
    ∧ option_Forall2 Permutation (evmLogs ab !! k) (evmLogs ba !! k).
Proof.
  intros Ha Hb He He' Hc Hc' Hk Hk'.
  exists (Keywise.mergeDataHandlers a b), (Keywise.mergeDataHandlers b a).
  split; [by apply mergeDataHandlers_keywise|].
  split; [by apply mergeDataHandlers_keywise|]. simpl.
  split; [apply Permutation_app_comm|]. split; [apply Permutation_app_comm|].
  split; [by apply merged_lists_commute|].
  split; [by apply merged_lists_commute|].
  split; [by apply merged_lists_commute|].
  rewrite !lookup_mergeMaps. unfold merge_entry.
  destruct (evmLogs a !! k), (evmLogs b !! k); simpl; constructor; try done.
  apply Permutation_app_comm.
Qed.
End registry_theorems.

Section registry_samples.
Import Handlers Samples.

(** Two registries with one handler each for the event [Transfer], one
    selecting [amount], the other with no selection: the merged entry has
    no selection and both handlers, the first registry's first. *)
Example merge_Transfer_handlers :
  mergeDataHandlers
    (mkDataHandlers (BlockHandler := nat) (CallHandler := nat)
       (EvmLogHandler := nat) (ContractsContractEmittedHandler := nat)
       (EvmTopicSet := nat) [] []
       {[ "Transfer" := mkHandlerList (Some {[ "amount" := VBool true ]}) [1] ]}
       ∅ ∅ ∅)
    (mkDataHandlers [] []
       {[ "Transfer" := mkHandlerList None [2] ]} ∅ ∅ ∅)
  = Ok (mkDataHandlers [] []
          {[ "Transfer" := mkHandlerList None [1; 2] ]} ∅ ∅ ∅).
Proof. by vm_compute. Qed.

Lemma registry1_plain : plain_registry registry1 = true.
Proof. by vm_compute. Qed.

Lemma registry2_plain : plain_registry registry2 = true.
Proof. by vm_compute. Qed.


Lemma mergeDataHandlers_associative_witness :
  plain_registry registry1 = true ∧ plain_registry registry2 = true
  ∧ ∃ ab bc r,
      mergeDataHandlers registry1 registry2 = Ok ab
      ∧ mergeDataHandlers ab registry1 = Ok r
      ∧ mergeDataHandlers registry2 registry1 = Ok bc
      ∧ mergeDataHandlers registry1 bc = Ok r.
Proof.
  split; [exact registry1_plain|]. split; [exact registry2_plain|].
  exact (mergeDataHandlers_associative registry1 registry2 registry1
           registry1_plain registry2_plain registry1_plain).
Defined.

Lemma mergeDataHandlers_empty_witness :
  plain_keys (events registry1) = true
  ∧ plain_keys (evmLogs registry1) = true
  ∧ mergeDataHandlers registry1 no_handlers = Ok registry1
  ∧ mergeDataHandlers no_handlers registry1 = Ok registry1.
Proof.
  assert (He : plain_keys (events registry1) = true) by (vm_compute; reflexivity).
  assert (Hl : plain_keys (evmLogs registry1) = true) by (vm_compute; reflexivity).
  destruct (mergeDataHandlers_empty registry1 He eq_refl Hl eq_refl) as [Hr Hl'].
  split; [exact He|]. split; [exact Hl|]. split; [exact Hr|exact Hl'].
Defined.

Lemma mergeDataHandlers_evmLogs_witness :
  plain_registry registry1 = true ∧ plain_registry registry2 = true
  ∧ ∃ r, mergeDataHandlers registry1 registry2 = Ok r
      ∧ evmLogs r !! "0xabc"
        = Some [mkEvmLogEntry None None 3; mkEvmLogEntry None (Some sel_from) 7]
      ∧ dom (events r) = dom (events registry1) ∪ dom (events registry2).
Proof.
  destruct (mergeDataHandlers_evmLogs registry1 registry2 "0xabc"
              registry1_plain registry2_plain)
    as (r & Hr & Hlog & _ & Hdom & _).
  split; [exact registry1_plain|]. split; [exact registry2_plain|].
  exists r. split; [exact Hr|]. split; [exact Hlog|exact Hdom].
Defined.

Lemma mergeDataHandlers_commutes_up_to_order_witness :
  plain_registry registry1 = true ∧ plain_registry registry2 = true
  ∧ null_free_under "Transfer" (events registry1)
  ∧ null_free_under "Transfer" (events registry2)
  ∧ ∃ ab ba, mergeDataHandlers registry1 registry2 = Ok ab
      ∧ mergeDataHandlers registry2 registry1 = Ok ba
      ∧ pre ab ≡ₚ pre ba
      ∧ option_Forall2 same_plan (events ab !! "Transfer")
                                 (events ba !! "Transfer").
Proof.
  assert (H1 : null_free_under "Transfer" (events registry1)).
  { intros l Hl. vm_compute in Hl. injection Hl as <-. vm_compute. reflexivity. }
  assert (H2 : null_free_under "Transfer" (events registry2)).
  { intros l Hl. vm_compute in Hl. injection Hl as <-. vm_compute. reflexivity. }
  assert (H0 : ∀ H, null_free_under "Transfer" (∅ : gmap string (HandlerList H))).
  { intros H l Hl. rewrite lookup_empty in Hl. discriminate. }
  destruct (mergeDataHandlers_commutes_up_to_order registry1 registry2
              "Transfer" registry1_plain registry2_plain
              H1 H2 (H0 _) (H0 _) (H0 _) (H0 _))
    as (ab & ba & Hab & Hba & Hpre & _ & Hev & _).
  split; [exact registry1_plain|]. split; [exact registry2_plain|].
  split; [exact H1|]. split; [exact H2|].
  exists ab, ba. split; [exact Hab|]. split; [exact Hba|].
  split; [exact Hpre|exact Hev].
Defined.
End registry_samples.

(** ** The column buffer (sink.ts, class Insert) *)

Section Insert_facts.
Import Archive.
Context {V : Type}.
Implicit Types (ins : @Insert V) (row : @Row V) (defs : @TableColumns V)
  (cols : list (string * list V)).

Lemma obj_set_fresh {A} name (x : A) (o : list (string * A)) :
  name ∉ o.*1 → obj_set name x o = o ++ [(name, x)].
Proof.
  induction o as [|[n y] o IH]; simpl; [done|].
  intros Hn. apply not_elem_of_cons in Hn as [Hne Hn].
  rewrite decide_False by done. by rewrite IH.
Qed.

Lemma makeColumns_spec defs :
  NoDup defs.*1 → makeColumns defs = empty_columns defs.
Proof.
  unfold makeColumns, empty_columns.
  assert (Hgen : ∀ acc : list (string * list V),
    NoDup (acc.*1 ++ defs.*1) →
    fold_left (λ columns '(name, _), obj_set name [] columns) defs acc
    = acc ++ ((λ d, (d.1, [])) <$> defs)).
  { induction defs as [|[name def] defs IH]; intros acc Hnd; simpl.
    - by rewrite app_nil_r.
    - simpl in Hnd. rewrite obj_set_fresh.
      + rewrite IH; [by rewrite <- app_assoc|].
        rewrite fmap_app. simpl. by rewrite <- app_assoc.
      + apply NoDup_app in Hnd as (_ & Hd & _). intros Hin.
        apply (Hd _ Hin). left. }
  intros Hnd. by apply (Hgen []).
Qed.

Lemma push_column_at name v (seen : list (string * list V)) col rest :
  name ∉ seen.*1 →
  push_column name v (seen ++ (name, col) :: rest)
  = Some (seen ++ (name, col ++ [v]) :: rest).
Proof.
  induction seen as [|[n c] seen IH]; simpl; intros Hn.
  - by rewrite decide_True.
  - apply not_elem_of_cons in Hn as [Hne Hn].
    rewrite decide_False by done. by rewrite IH.
Qed.

Lemma add_loop_spec row defs :
  ∀ seen cols,
    cols.*1 = defs.*1 → NoDup (seen.*1 ++ defs.*1) →
    add_loop defs row (seen ++ cols) = Some (seen ++ with_row row defs cols).
Proof.
  induction defs as [|[name def] defs IH]; intros seen cols Hk Hnd.
  - destruct cols; [done|discriminate].
  - destruct cols as [|[n col] cols]; [discriminate|].
    simpl in Hk. injection Hk as -> Hk. simpl in Hnd |- *.
    rewrite push_column_at.
    + simpl. rewrite (cons_middle _ seen), app_assoc.
      rewrite IH; [by rewrite <- app_assoc|done|].
      rewrite fmap_app. simpl. by rewrite <- app_assoc.
    + apply NoDup_app in Hnd as (_ & Hd & _). intros Hin.
      apply (Hd _ Hin). left.
Qed.

Lemma with_row_keys row defs cols :
  cols.*1 = defs.*1 → (with_row row defs cols).*1 = defs.*1.
Proof.
  revert cols. induction defs as [|[name def] defs IH];
    intros [|[n col] cols] Hk; try done.
  simpl in *. injection Hk as -> Hk. f_equal. by apply IH.
Qed.

Lemma with_row_lengths row defs cols k :
  cols.*1 = defs.*1 →
  Forall (λ col, length col = k) cols.*2 →
  Forall (λ col, length col = S k) (with_row row defs cols).*2.
Proof.
  revert cols. induction defs as [|[name def] defs IH];
    intros [|[n col] cols] Hk Hl; try done; simpl in *; try by constructor.
  injection Hk as -> Hk. apply Forall_cons in Hl as [Hc Hl].
  constructor; [rewrite length_app; simpl; lia|by apply IH].
Qed.

(** [add] on a well-formed buffer. *)
Lemma add_spec row ins :
  Insert_wf ins →
  add row ins
  = Some (Insert_with_columns ins (with_row row (mapping ins) (columns ins))).
Proof.
  intros [Hnd Hk]. unfold add.
  pose proof (add_loop_spec row (mapping ins) [] (columns ins) Hk Hnd) as Hl.
  simpl in Hl. by rewrite Hl.
Qed.

Lemma add_wf row ins :
  Insert_wf ins →
  Insert_wf (Insert_with_columns ins (with_row row (mapping ins) (columns ins))).
Proof. intros [Hnd Hk]. split; [done|]. simpl. by apply with_row_keys. Qed.

Lemma clear_wf ins : NoDup (mapping ins).*1 → Insert_wf (clear ins).
Proof.
  intros Hnd. split; [done|]. simpl. rewrite makeColumns_spec by done.
  unfold empty_columns. rewrite <- list_fmap_compose. done.
Qed.

Lemma Insert_new_wf tbl defs : NoDup defs.*1 → Insert_wf (Insert_new tbl defs).
Proof. intros Hnd. apply (clear_wf (Insert_new tbl defs) Hnd). Qed.

Lemma size_with_row row ins :
  Insert_wf ins →
  size (Insert_with_columns ins (with_row row (mapping ins) (columns ins)))
  = if decide (mapping ins = []) then 0 else S (size ins).
Proof.
  intros [_ Hk]. unfold size. simpl.
  destruct (mapping ins) as [|[name def] defs], (columns ins) as [|[n col] cols];
    try done.
  simpl. rewrite length_app. simpl. lia.
Qed.

Lemma add_aligned row ins :
  Insert_wf ins → aligned ins →
  aligned (Insert_with_columns ins (with_row row (mapping ins) (columns ins))).
Proof.
  intros Hwf Hal. unfold aligned. rewrite size_with_row by done.
  destruct Hwf as [_ Hk]. simpl. case_decide as Hm.
  - rewrite Hm. by destruct (columns ins).
  - by apply with_row_lengths.
Qed.

Lemma clear_aligned ins : NoDup (mapping ins).*1 → aligned (clear ins).
Proof.
  intros Hnd. unfold aligned, size. simpl. rewrite makeColumns_spec by done.
  unfold empty_columns. destruct (mapping ins) as [|[name def] defs]; simpl.
  - constructor.
  - constructor; [done|]. rewrite <- list_fmap_compose.
    apply Forall_fmap, Forall_true. done.
Qed.

Lemma addMany_fold rows ins :
  addMany rows ins = foldl (λ acc row, acc ≫= add row) (Some ins) rows.
Proof.
  revert ins. induction rows as [|row rows IH]; intros ins; simpl; [done|].
  destruct (add row ins) as [ins'|]; simpl; [apply IH|].
  clear. induction rows; simpl; done.
Qed.

Lemma add_steady defs row ins :
  steady defs ins → ∃ ins', add row ins = Some ins' ∧ steady defs ins'
    ∧ table ins' = table ins ∧ sql ins' = sql ins ∧ size ins ≤ size ins'.
Proof.
  intros (Hm & Hwf & Hal). eexists. split; [by apply add_spec|].
  repeat split; try done; [by apply add_wf | by apply add_wf | by apply add_aligned |].
  rewrite size_with_row by done. case_decide as Hd; [|lia].
  unfold size. destruct Hwf as [_ Hk]. rewrite Hd in Hk. by destruct (columns ins).
Qed.

Lemma addMany_steady defs rows ins :
  steady defs ins → ∃ ins', addMany rows ins = Some ins' ∧ steady defs ins'
    ∧ table ins' = table ins ∧ sql ins' = sql ins ∧ size ins ≤ size ins'.
Proof.
  revert ins. induction rows as [|row rows IH]; intros ins Hs; simpl.
  - by exists ins.
  - destruct (add_steady defs row ins Hs) as (ins1 & -> & Hs1 & Ht & Hq & Hsz). simpl.
    destruct (IH ins1 Hs1) as (ins2 & -> & Hs2 & Ht2 & Hq2 & Hsz2).
    exists ins2. repeat split; try done; try congruence; try apply Hs2. lia.
Qed.

Lemma clear_steady defs ins : steady defs ins → steady defs (clear ins).
Proof.
  intros (Hm & [Hnd _] & _). split; [done|]. split; [by apply clear_wf|by apply clear_aligned].
Qed.

Lemma apply_ops_steady defs ops ins :
  steady defs ins → ∃ ins', apply_ops ops ins = Some ins' ∧ steady defs ins'.
Proof.
  revert ins. induction ops as [|o ops IH]; intros ins Hs; simpl.
  - by exists ins.
  - assert (∃ ins1, apply_op o ins = Some ins1 ∧ steady defs ins1) as (ins1 & -> & Hs1).
    { destruct o as [row|rows|]; simpl.
      - destruct (add_steady defs row ins Hs) as (? & ? & ? & _); eauto.
      - destruct (addMany_steady defs rows ins Hs) as (? & ? & ? & _); eauto.
      - eexists. split; [done|]. by apply clear_steady. }
    simpl. by apply IH.
Qed.
End Insert_facts.

Section Insert_theorem.
Import Archive.
Context {V : Type}.

(** C9.  A buffer declared with distinct column names, after any sequence
    of [add], [addMany] and [clear] from its creation: no call fails; the
    columns are the declared ones, in the declared order; all of them have
    the same length, which is what [size] returns (0 for the buffer just
    created).  On such a buffer [add] appends to every column one value:
    the row's field of that name, or what the column's transform makes
    of it when the column has one; [addMany] is [add] on each row in
    order; [clear] leaves the declared columns, in order, all empty. *)
Theorem ColumnBuffer_alignment
    (tbl : string) (defs : @TableColumns V) (ops : list op) :
  NoDup defs.*1 →
  size (Insert_new tbl defs) = 0
  ∧ ∃ ins, apply_ops ops (Insert_new tbl defs) = Some ins
      ∧ (columns ins).*1 = defs.*1
      ∧ Forall (λ col, length col = size ins) (columns ins).*2
      ∧ (∀ row, ∃ ins', add row ins = Some ins'
           ∧ (columns ins').*1 = defs.*1
           ∧ (columns ins').*2
             = zip_with (λ '(name, def) col,
                           col ++ [match col_map def with
                                   | Some transform => transform (row name)
                                   | None => row name
                                   end])
                        defs (columns ins).*2)
      ∧ (∀ rows, addMany rows ins
                 = foldl (λ acc row, acc ≫= add row) (Some ins) rows)
      ∧ columns (clear ins) = empty_columns defs
      ∧ size (clear ins) = 0.
Proof.
  intros Hnd.
  assert (Hnew : steady defs (Insert_new tbl defs)).
  { split; [done|]. split; [by apply Insert_new_wf|].
    by apply (clear_aligned (Insert_new tbl defs)). }
  assert (Hzero : ∀ ins : @Insert V, mapping ins = defs → size (clear ins) = 0).
  { intros ins Hm. unfold size. simpl. rewrite Hm, makeColumns_spec by done.
    by destruct defs as [|[? ?] ?]. }
  split; [by apply (Hzero (Insert_new tbl defs))|].
  destruct (apply_ops_steady defs ops _ Hnew) as (ins & Hops & Hm & Hwf & Hal).
  exists ins. split; [done|]. split; [by rewrite (proj2 Hwf), Hm|].
  split; [done|]. split; [|split; [intros; apply addMany_fold|split]].
  - intros row. eexists. split; [by apply add_spec|]. rewrite Hm. simpl.
    destruct Hwf as [_ Hk]. rewrite Hm in Hk. clear -Hk.
    revert Hk. generalize (columns ins). clear.
    induction defs as [|[name def] defs IH]; intros [|[n col] cols] Hk; try done.
    simpl in *. injection Hk as -> Hk. destruct (IH _ Hk) as [IH1 IH2].
    unfold with_row in IH1, IH2. split; f_equal; done.
  - simpl. rewrite Hm. by apply makeColumns_spec.
  - by apply Hzero.
Qed.
End Insert_theorem.

Section Insert_witness.
Import Archive Samples.

Lemma ColumnBuffer_alignment_witness :
  NoDup extrinsic_sig.*1
  ∧ ∃ ins, apply_ops [Add signed; Clear; AddMany [signed; signed2]]
                     (Insert_new "extrinsic" extrinsic_sig) = Some ins
      ∧ columns ins
        = [("id", ["1-0"; "1-1"]); ("signature", ["<0xsig>"; "<0xabc>"])]
      ∧ size ins = 2
      ∧ Forall (λ col, length col = size ins) (columns ins).*2
      ∧ (∃ ins', add signed ins = Some ins'
           ∧ (columns ins').*2
             = [["1-0"; "1-1"; "1-0"]; ["<0xsig>"; "<0xabc>"; "<0xsig>"]])
      ∧ size (clear ins) = 0.
Proof.
  assert (Hnd : NoDup extrinsic_sig.*1) by (by apply (bool_decide_unpack _)).
  split; [exact Hnd|].
  destruct (ColumnBuffer_alignment "extrinsic" extrinsic_sig
              [Add signed; Clear; AddMany [signed; signed2]] Hnd)
    as (_ & ins & Hops & Hk & Hal & Hadd & _ & _ & Hz).
  destruct (Hadd signed) as (ins' & Hins' & _ & Hcols).
  exists ins. vm_compute in Hops. injection Hops as <-.
  split; [reflexivity|]. split; [reflexivity|]. split; [reflexivity|].
  split; [exact Hal|]. split; [|exact Hz].
  exists ins'. split; [exact Hins'|exact Hcols].
Defined.
End Insert_witness.

(** ** The transactional writer (sink.ts, class PostgresSink) *)

Section Sink_facts.
Import Archive.
Context {V E : Type}.
Implicit Types (s : @PostgresSink V E) (c : @Client V E) (b : buffer)
  (ins : @Insert V) (q : @Query V) (qs : list (@Query V)).

Lemma buf_set_buf_eq b ins s : buf b (set_buf b ins s) = ins.
Proof. by destruct b. Qed.

Lemma buf_set_buf_ne b b' ins s : b ≠ b' → buf b' (set_buf b ins s) = buf b' s.
Proof. by destruct b, b'. Qed.

Lemma buf_set_db b c s : buf b (set_db c s) = buf b s.
Proof. by destruct b. Qed.

Lemma buf_set_metrics b sp pr s : buf b (set_metrics sp pr s) = buf b s.
Proof. by destruct b. Qed.

Lemma set_db_id s : set_db (db s) s = s.
Proof. by destruct s. Qed.

Lemma set_db_set_db c c' s : set_db c' (set_db c s) = set_db c' s.
Proof. done. Qed.

Lemma buffers_ext s s' : (∀ b, buf b s' = buf b s) → buffers s' = buffers s.
Proof. intros H. unfold buffers. apply list_fmap_ext. intros _ b _. apply H. Qed.

Lemma pending_ext s s' : (∀ b, buf b s' = buf b s) → pending s' = pending s.
Proof. intros H. unfold pending. by rewrite (buffers_ext _ _ H). Qed.

Lemma grows_refl s : Sink_wf s → grows s s.
Proof. by intros Hwf. Qed.

Lemma grows_trans s1 s2 s3 : grows s1 s2 → grows s2 s3 → grows s1 s3.
Proof.
  intros (_ & Hd & Hs & Hp & Hz) (Hwf & Hd' & Hs' & Hp' & Hz').
  repeat split; try congruence; try apply Hwf.
  intros b. specialize (Hz b). specialize (Hz' b). lia.
Qed.

Lemma on_buffer_grows b (f : Insert → option Insert) s :
  Sink_wf s →
  (∀ ins, Insert_wf ins → ∃ ins', f ins = Some ins' ∧ Insert_wf ins'
      ∧ same_table ins ins' ∧ size ins ≤ size ins') →
  ∃ s1, on_buffer b f s = (inr (), s1) ∧ grows s s1.
Proof.
  intros Hwf Hf.
  destruct (Hf (buf b s)) as (ins' & Hins & Hwf' & (Ht & Hm & Hq) & Hsz).
  { apply Hwf. }
  exists (set_buf b ins' s). unfold on_buffer. rewrite Hins. split; [done|].
  split; [|repeat split; try done].
  - intros b'. destruct (decide (b = b')) as [<-|Hne].
    + rewrite buf_set_buf_eq. split; [done|]. rewrite Ht, Hm, Hq. apply Hwf.
    + rewrite buf_set_buf_ne by done. apply Hwf.
  - intros b'. destruct (decide (b = b')) as [<-|Hne].
    + by rewrite buf_set_buf_eq.
    + by rewrite buf_set_buf_ne.
Qed.

Lemma add_keeps row ins :
  Insert_wf ins → ∃ ins', add row ins = Some ins' ∧ Insert_wf ins'
    ∧ same_table ins ins' ∧ size ins ≤ size ins'.
Proof.
  intros Hwf. eexists. split; [by apply add_spec|].
  split; [by apply add_wf|]. split; [done|].
  rewrite size_with_row by done. case_decide as Hd; [|lia].
  unfold size. destruct Hwf as [_ Hk]. rewrite Hd in Hk. by destruct (columns ins).
Qed.

Lemma addMany_keeps rows ins :
  Insert_wf ins → ∃ ins', addMany rows ins = Some ins' ∧ Insert_wf ins'
    ∧ same_table ins ins' ∧ size ins ≤ size ins'.
Proof.
  revert ins. induction rows as [|row rows IH]; intros ins Hwf; simpl.
  - by exists ins.
  - destruct (add_keeps row ins Hwf) as (ins1 & -> & Hwf1 & (Ht & Hm & Hq) & Hsz).
    simpl.
    destruct (IH ins1 Hwf1) as (ins2 & -> & Hwf2 & (Ht2 & Hm2 & Hq2) & Hsz2).
    exists ins2. repeat split; try done; try congruence; try apply Hwf2. lia.
Qed.

Lemma bind_ok {A B} (m : Task A) (k : A → Task B) s x s1 :
  m s = (inr x, s1) → (m ≫= k) s = k x s1.
Proof. intros Hm. unfold mbind, Task_bind, bind. by rewrite Hm. Qed.

Lemma bind_fail {A B} (m : Task A) (k : A → Task B) s e s1 :
  m s = (inl e, s1) → (m ≫= k) s = (inl e, s1).
Proof. intros Hm. unfold mbind, Task_bind, bind. by rewrite Hm. Qed.

(** The appends of [write] never fail on a well-formed sink, and only add
    rows. *)
Lemma append_block_grows (block : BlockData) s :
  Sink_wf s → ∃ s1, append_block block s = (inr (), s1) ∧ grows s s1.
Proof.
  intros Hwf. unfold append_block.
  assert (H0 : ∃ s0,
    (if metadata block is Some m then on_buffer MetadataBuf (add m) else ret ()) s
    = (inr (), s0) ∧ grows s s0).
  { destruct (metadata block) as [m|].
    - apply on_buffer_grows; [done|]. intros. by apply add_keeps.
    - exists s. split; [done|by apply grows_refl]. }
  destruct H0 as (s0 & E0 & G0). rewrite (bind_ok _ _ _ _ _ E0).
  destruct (on_buffer_grows HeaderBuf (add (header block)) s0) as (s1 & E1 & G1);
    [apply G0|intros; by apply add_keeps|].
  rewrite (bind_ok _ _ _ _ _ E1).
  destruct (on_buffer_grows ExtrinsicBuf (addMany (extrinsics block)) s1)
    as (s2 & E2 & G2); [apply G1|intros; by apply addMany_keeps|].
  rewrite (bind_ok _ _ _ _ _ E2).
  destruct (on_buffer_grows CallBuf (addMany (calls block)) s2)
    as (s3 & E3 & G3); [apply G2|intros; by apply addMany_keeps|].
  rewrite (bind_ok _ _ _ _ _ E3).
  destruct (on_buffer_grows EventBuf (addMany (events block)) s3)
    as (s4 & E4 & G4); [apply G3|intros; by apply addMany_keeps|].
  rewrite (bind_ok _ _ _ _ _ E4).
  assert (H5 : ∃ s5,
    (if warnings block is Some ws then on_buffer WarningBuf (addMany ws) else ret ()) s4
    = (inr (), s5) ∧ grows s4 s5).
  { destruct (warnings block) as [ws|].
    - apply on_buffer_grows; [apply G4|]. intros. by apply addMany_keeps.
    - exists s4. split; [done|apply grows_refl, G4]. }
  destruct H5 as (s5 & E5 & G5). exists s5. split; [done|].
  do 5 (eapply grows_trans; [eassumption|]). exact G5.
Qed.

(** [write] is its appends followed by the flush test. *)
Lemma write_unfold (block : BlockData) s :
  write block s =
  match append_block block s with
  | (inr _, s1) =>
      if last block || bool_decide (20 < size (headerInsert s1))
      then submit s1 else (inr (), s1)
  | (inl e, s1) => (inl e, s1)
  end.
Proof.
  unfold write, append_block, mbind, Task_bind, bind.
  repeat match goal with
  | |- context [match ?m s with _ => _ end] => destruct (m s) as [[?|[]] ?]
  | |- context [match on_buffer ?b ?f ?s' with _ => _ end] =>
      destruct (on_buffer b f s') as [[?|[]] ?]
  | |- context [match (if ?c is Some _ then _ else _) ?s' with _ => _ end] =>
      destruct ((if c is Some m then _ else _) s') as [[?|[]] ?]
  end; try done.
  destruct (_ p3) as [[?|[]] s5]; [done|]. simpl.
  by destruct (last block || _).
Qed.

(** *** What the client sees *)

Lemma send_all_app qs1 qs2 c :
  send_all (qs1 ++ qs2) c =
  match send_all qs1 c with
  | (Some e, c') => (Some e, c')
  | (None, c') => send_all qs2 c'
  end.
Proof.
  revert c. induction qs1 as [|q qs1 IH]; intros c; simpl; [done|].
  destruct (respond c (history c) q); [done|]. apply IH.
Qed.

(** [send_all] stops at the first statement the server refuses; the
    statements before it were accepted, and it is the last one sent. *)
Lemma send_all_trace qs c :
  match send_all qs c with
  | (None, c') =>
      respond c' = respond c ∧ history c' = history c ++ qs
      ∧ ∀ i q, qs !! i = Some q → respond c (history c ++ take i qs) q = None
  | (Some e, c') =>
      respond c' = respond c
      ∧ ∃ i q, qs !! i = Some q
          ∧ respond c (history c ++ take i qs) q = Some e
          ∧ history c' = history c ++ take (S i) qs
          ∧ ∀ j q', j < i → qs !! j = Some q' →
              respond c (history c ++ take j qs) q' = None
  end.
Proof.
  revert c. induction qs as [|q qs IH]; intros c; simpl.
  - split; [done|]. split; [by rewrite app_nil_r|]. intros i q. by rewrite lookup_nil.
  - destruct (respond c (history c) q) as [e|] eqn:Hq.
    + split; [done|]. exists 0, q. simpl. rewrite app_nil_r.
      repeat split; try done. intros j q' Hj. lia.
    + specialize (IH {| history := history c ++ [q]; respond := respond c |}).
      destruct (send_all qs _) as [[e|] c']; simpl in IH.
      * destruct IH as (Hr & i & q0 & Hi & Hq0 & Hh & Hbefore).
        split; [done|]. exists (S i), q0. simpl.
        rewrite <- app_assoc in Hq0, Hh. repeat split; try done.
        intros [|j] q' Hj Hq'; simpl in *.
        -- injection Hq' as <-. by rewrite app_nil_r.
        -- specialize (Hbefore j q'). rewrite <- app_assoc in Hbefore.
           apply Hbefore; [lia|done].
      * destruct IH as (Hr & Hh & Hall). split; [done|].
        rewrite <- app_assoc in Hh. split; [done|].
        intros [|i] q0 Hq0; simpl in *.
        -- injection Hq0 as <-. by rewrite app_nil_r.
        -- specialize (Hall i q0). rewrite <- app_assoc in Hall. by apply Hall.
Qed.

Lemma query_all_spec bs s :
  query_all bs s =
  let '(r, c) :=
    send_all (statement <$> filter (λ ins, size ins ≠ 0) ((λ b, buf b s) <$> bs))
             (db s) in
  (settled r, set_db c s).
Proof.
  assert (Hone : ∀ b s (k : Task unit) qs,
    (∀ c, k (set_db c s) =
          let '(r, c') := send_all qs c in (settled r, set_db c' s)) →
    (Insert_query b ≫= λ _, k) s =
    let '(r, c) := send_all
      ((statement <$> filter (λ ins, size ins ≠ 0) [buf b s]) ++ qs) (db s) in
    (settled r, set_db c s)).
  { intros b s0 k qs Hk. unfold mbind, Task_bind, bind, Insert_query.
    rewrite filter_cons, filter_nil. case_decide as Hz.
    - rewrite decide_False by (by intros ?). simpl.
      rewrite <- (set_db_id s0) at 1. apply Hk.
    - rewrite decide_True by done. simpl.
      destruct (respond (db s0) (history (db s0)) (statement (buf b s0))); [done|].
      simpl. apply Hk. }
  revert s. induction bs as [|b bs IH]; intros s.
  - simpl. by rewrite set_db_id.
  - destruct bs as [|b' bs].
    + specialize (Hone b s (ret ()) []). rewrite app_nil_r in Hone.
      simpl in Hone |- *. rewrite <- Hone; [|done].
      unfold mbind, Task_bind, bind, ret.
      by destruct (Insert_query b s) as [[?|[]] ?].
    + change (query_all (b :: b' :: bs) s)
        with ((Insert_query b ≫= λ _, query_all (b' :: bs)) s).
      rewrite (Hone b s _
        (statement <$> filter (λ ins, size ins ≠ 0) ((λ b, buf b s) <$> (b' :: bs)))).
      * by rewrite <- fmap_app, <- filter_app.
      * intros c. rewrite IH.
        assert (Hb : (λ b0 : buffer, buf b0 (set_db c s)) <$> (b' :: bs)
                     = (λ b0, buf b0 s) <$> (b' :: bs)).
        { apply list_fmap_ext. intros. apply buf_set_db. }
        rewrite Hb. simpl. by destruct (send_all _ c).
Qed.

(** *** The transaction *)

Lemma tx_spec (cb : Task ()) s qs :
  (∀ c, cb (set_db c s) =
        let '(r, c') := send_all qs c in (settled r, set_db c' s)) →
  tx cb s =
  match Client_query BEGIN (db s) with
  | (Some e, c) => (inl (DbError e), set_db c s)
  | (None, c) =>
      match send_all (qs ++ [COMMIT]) c with
      | (Some e, c') =>
          (inl (DbError e), set_db (Client_query ROLLBACK c').2 s)
      | (None, c') => (inr (), set_db c' s)
      end
  end.
Proof.
  intros Hcb. unfold tx, mbind, Task_bind, bind, try_catch, db_query. simpl.
  destruct (respond (db s) (history (db s)) BEGIN) as [e|]; simpl; [done|].
  rewrite Hcb, send_all_app.
  destruct (send_all qs _) as [[e|] c']; simpl; [done|].
  by destruct (respond c' (history c') COMMIT).
Qed.

Lemma submit_spec s :
  match Client_query BEGIN (db s) with
  | (Some e, c) => submit s = (inl (DbError e), set_db c (started s))
  | (None, c) =>
      match send_all (pending s ++ [COMMIT]) c with
      | (Some e, c') =>
          submit s
          = (inl (DbError e), set_db (Client_query ROLLBACK c').2 (started s))
      | (None, c') =>
          ∃ s', submit s = (inr (), s') ∧ db s' = c'
                ∧ ∀ b, buf b s' = clear (buf b s)
      end
  end.
Proof.
  unfold submit.
  rewrite (bind_ok this _ s s s) by done.
  rewrite (bind_ok (speed_call SpeedStart) _ s () (started s)) by done.
  change (Insert_query MetadataBuf ≫= _) with (@query_all V E all_buffers).
  pose proof (tx_spec (query_all all_buffers) (started s) (pending s)) as Htx.
  simpl in Htx.
  assert (Hq : ∀ c, query_all all_buffers (set_db c (started s)) =
    let '(r, c') := send_all (pending s) c in (settled r, set_db c' (started s))).
  { intros c. rewrite query_all_spec. simpl. done. }
  specialize (Htx Hq). simpl.
  destruct (respond (db s) (history (db s)) BEGIN) as [e|].
  { by rewrite (bind_fail _ _ _ _ _ Htx). }
  destruct (send_all (pending s ++ [COMMIT]) _) as [[e|] c'].
  { by rewrite (bind_fail _ _ _ _ _ Htx). }
  rewrite (bind_ok _ _ _ _ _ Htx).
  unfold mbind, Task_bind, bind. simpl.
  destruct (bool_decide _ || bool_decide _);
    eexists; (split; [reflexivity|]); (split; [done|]); by intros [].
Qed.
End Sink_facts.

Section Sink_theorems.
Import Archive.
Context {V E : Type}.
Implicit Types (s : @PostgresSink V E) (c : @Client V E) (b : buffer)
  (ins : @Insert V) (q : @Query V) (qs : list (@Query V))
  (block : @BlockData V) (blocks : list (@BlockData V)).

Lemma PostgresSink_new_wf (toJsonString toJSON : V → V) c sp pr :
  Sink_wf (PostgresSink_new toJsonString toJSON c sp pr).
Proof.
  intros b. split; [|by destruct b].
  destruct b; apply Insert_new_wf; simpl;
    by apply (bool_decide_unpack _).
Qed.

Lemma grows_sizes s s' : grows s s' → Forall2 le (sizes s) (sizes s').
Proof.
  intros (_ & _ & _ & _ & Hz). unfold sizes, buffers, all_buffers. simpl.
  repeat constructor; apply (Hz MetadataBuf) || apply (Hz HeaderBuf)
    || apply (Hz ExtrinsicBuf) || apply (Hz CallBuf) || apply (Hz EventBuf)
    || apply (Hz WarningBuf).
Qed.

Lemma write_all_app blocks1 blocks2 s :
  write_all (blocks1 ++ blocks2) s =
  match write_all blocks1 s with
  | (inr _, s1) => write_all blocks2 s1
  | (inl e, s1) => (inl e, s1)
  end.
Proof.
  revert s. induction blocks1 as [|block blocks1 IH]; intros s; simpl; [done|].
  unfold mbind, Task_bind, bind.
  destruct (write block s) as [[e|[]] s1]; [done|]. apply IH.
Qed.

(** A quiet sequence is written without a flush. *)
Lemma quiet_app blocks1 blocks2 s :
  Sink_wf s → quiet s (blocks1 ++ blocks2) = true →
  ∃ s1, write_all blocks1 s = (inr (), s1) ∧ grows s s1
        ∧ quiet s1 blocks2 = true.
Proof.
  revert s. induction blocks1 as [|block blocks1 IH]; intros s Hwf Hq; simpl in *.
  - exists s. split; [done|]. split; [by apply grows_refl|done].
  - apply andb_true_iff in Hq as [Hlast Hq].
    destruct (append_block_grows block s Hwf) as (s1 & Happ & G1).
    rewrite Happ in Hq. apply andb_true_iff in Hq as [Hsz Hq].
    apply bool_decide_eq_true in Hsz. apply negb_true_iff in Hlast.
    destruct (IH s1 (proj1 G1) Hq) as (s2 & Hw & G2 & Hq2).
    exists s2. split; [|split; [by eapply grows_trans|done]].
    unfold mbind, Task_bind, bind. rewrite write_unfold, Happ, Hlast.
    rewrite bool_decide_eq_false_2 by lia. simpl. apply Hw.
Qed.

Lemma submit_sends_BEGIN s :
  ∃ rest, history (db (submit s).2) = history (db s) ++ BEGIN :: rest.
Proof.
  pose proof (submit_spec s) as Hs. simpl in Hs.
  destruct (respond (db s) (history (db s)) BEGIN) as [e|].
  { rewrite Hs. by exists []. }
  match type of Hs with context [send_all ?qs ?c] =>
    pose proof (send_all_trace qs c) as Ht; destruct (send_all qs c) as [[e|] c']
  end.
  - rewrite Hs. destruct Ht as (_ & i & q & _ & _ & Hh & _). simpl in *.
    rewrite Hh, <- !app_assoc. by eexists.
  - destruct Hs as (s' & -> & Hd & _). destruct Ht as (_ & Hh & _). simpl in *.
    rewrite Hd, Hh, <- !app_assoc. by eexists.
Qed.

(** C2.  The flush policy of [write] on a well-formed sink.  A sequence
    of blocks none of which is marked [last] and each of which leaves at
    most 20 rows in the header buffer once appended is written without
    any flush: every call succeeds, the client receives nothing, and the
    size of every buffer only grows from one call to the next.
    Conversely, a block marked [last], or one whose header row is the
    21st or later, makes [write] run [submit] on the appended buffers,
    which sends [BEGIN]; any other block is only appended. *)
Theorem flush_policy block blocks s :
  Sink_wf s →
  (quiet s blocks = true →
   ∀ i j, i ≤ j →
     (write_all (take j blocks) s).1 = inr ()
     ∧ db (write_all (take j blocks) s).2 = db s
     ∧ Forall2 le (sizes (write_all (take i blocks) s).2)
                  (sizes (write_all (take j blocks) s).2))
  ∧ ∃ s1, append_block block s = (inr (), s1)
      ∧ (last block = true ∨ 20 < size (headerInsert s1) →
         write block s = submit s1
         ∧ ∃ rest, history (db (write block s).2)
                   = history (db s) ++ BEGIN :: rest)
      ∧ (last block = false → size (headerInsert s1) ≤ 20 →
         write block s = (inr (), s1)).
Proof.
  intros Hwf. split.
  - intros Hq i j Hij.
    rewrite <- (take_drop j blocks) in Hq.
    assert (Hj : take j blocks
                 = take i blocks ++ take (j - i) (drop i blocks)).
    { rewrite take_take_drop. f_equal. lia. }
    rewrite Hj in Hq |- *. rewrite <- app_assoc in Hq.
    destruct (quiet_app _ _ s Hwf Hq) as (si & Hwi & Gi & Hqi).
    destruct (quiet_app _ _ si (proj1 Gi) Hqi) as (sj & Hwj & Gj & _).
    rewrite write_all_app, Hwi, Hwj. simpl.
    split; [done|]. split.
    + destruct Gi as (_ & Hdi & _), Gj as (_ & Hdj & _). congruence.
    + by apply grows_sizes.
  - destruct (append_block_grows block s Hwf) as (s1 & Happ & G1).
    exists s1. split; [done|]. rewrite write_unfold, Happ. split.
    + intros Hflush.
      assert (Hc : last block || bool_decide (20 < size (headerInsert s1)) = true).
      { destruct Hflush as [->|Hsz]; [done|].
        rewrite (bool_decide_eq_true_2 _ Hsz). apply orb_true_r. }
      rewrite Hc. split; [done|].
      destruct (submit_sends_BEGIN s1) as [rest Hrest].
      exists rest. rewrite Hrest. by destruct G1 as (_ & -> & _).
    + intros -> Hsz. by rewrite bool_decide_eq_false_2 by lia.
Qed.

Lemma Sink_wf_tables s :
  Sink_wf s →
  table <$> buffers s
  = ["metadata"; "block"; "extrinsic"; "call"; "event"; "warning"].
Proof.
  intros Hwf. transitivity (table_of <$> all_buffers); [|done].
  unfold buffers. rewrite <- list_fmap_compose.
  apply list_fmap_ext. intros _ b _. apply Hwf.
Qed.

(** C6.  A flush of a well-formed sink sends, between [BEGIN] and the
    closing [COMMIT]/[ROLLBACK], the insert statements of the buffers of
    metadata, block, extrinsic, call, event and warning, in this order,
    leaving out every buffer whose size is 0: what is sent is the
    beginning of that list, and all of it when the flush succeeds.  An
    empty buffer is no error: with a server that accepts every statement
    the flush succeeds. *)
Theorem flush_statement_order s :
  Sink_wf s →
  table <$> buffers s
  = ["metadata"; "block"; "extrinsic"; "call"; "event"; "warning"]
  ∧ pending s
    = statement <$> filter (λ ins, size ins ≠ 0)
        [metadataInsert s; headerInsert s; extrinsicInsert s;
         callInsert s; eventInsert s; warningInsert s]
  ∧ (∃ n closing,
       history (db (submit s).2)
       = history (db s) ++ BEGIN :: take n (pending s) ++ closing
       ∧ Forall (λ q, q = COMMIT ∨ q = ROLLBACK) closing
       ∧ ((submit s).1 = inr () → n = length (pending s) ∧ closing = [COMMIT]))
  ∧ ((∀ h q, respond (db s) h q = None) → (submit s).1 = inr ()).
Proof.
  intros Hwf. split; [by apply Sink_wf_tables|]. split; [done|].
  pose proof (submit_spec s) as Hs. simpl in Hs.
  destruct (respond (db s) (history (db s)) BEGIN) as [e|] eqn:Hbegin.
  { rewrite Hs. simpl. split.
    - exists 0, []. rewrite take_0. split; [done|]. split; [repeat (apply Forall_cons_2; [auto|]); apply Forall_nil_2|done].
    - intros Hok. by rewrite Hok in Hbegin. }
  match type of Hs with context [send_all ?qs ?c] =>
    pose proof (send_all_trace qs c) as Ht; destruct (send_all qs c) as [[e|] c']
  end.
  - rewrite Hs. simpl in *.
    destruct Ht as (Hr & i & q & Hi & Hq & Hh & _). split.
    + destruct (decide (i < length (pending s))) as [Hlt|Hge].
      * exists (S i), [ROLLBACK]. rewrite Hh, <- !app_assoc. simpl.
        rewrite take_app_le by lia. split; [done|]. split; [repeat (apply Forall_cons_2; [auto|]); apply Forall_nil_2|done].
      * exists (length (pending s)), [COMMIT; ROLLBACK].
        rewrite Hh, <- !app_assoc. simpl.
        apply lookup_lt_Some in Hi. rewrite length_app in Hi. simpl in Hi.
        rewrite (take_ge (pending s ++ [COMMIT])) by (rewrite length_app; simpl; lia).
        rewrite firstn_all, <- !app_assoc. simpl.
        split; [done|].
        split; [repeat (apply Forall_cons_2; [auto|]); apply Forall_nil_2|done].
    + intros Hok. by rewrite Hok in Hq.
  - destruct Hs as (s' & -> & Hd & _). destruct Ht as (_ & Hh & _). simpl in *.
    split; [|done].
    exists (length (pending s)), [COMMIT].
    rewrite Hd, Hh, firstn_all, <- !app_assoc. simpl.
    split; [done|]. split; [repeat (apply Forall_cons_2; [auto|]); apply Forall_nil_2|done].
Qed.

(** C1 (amended).  When [write] fails on a well-formed sink, the failure
    comes from the flush: one statement [q] of [BEGIN], the pending
    inserts and [COMMIT] was refused, all statements before it having been
    accepted.  The error raised is the one returned for [q], whatever the
    server answers afterwards.  When [q] is an insert or [COMMIT], a
    [ROLLBACK] is sent after it and its outcome is ignored; when [q] is
    [BEGIN] itself, nothing is sent after it.  In both cases every buffer
    is exactly as the appends of this call left it. *)
Theorem failed_flush_keeps_rows block s e s' :
  Sink_wf s →
  write block s = (inl e, s') →
  ∃ s1, append_block block s = (inr (), s1)
    ∧ buffers s' = buffers s1
    ∧ ∃ i q e0,
        plan s1 !! i = Some q
        ∧ (∀ j q', j < i → plan s1 !! j = Some q' →
             respond (db s) (history (db s) ++ take j (plan s1)) q' = None)
        ∧ respond (db s) (history (db s) ++ take i (plan s1)) q = Some e0
        ∧ e = DbError e0
        ∧ history (db s')
          = history (db s) ++ take (S i) (plan s1)
            ++ (if decide (i = 0) then [] else [ROLLBACK]).
Proof.
  intros Hwf Hw.
  destruct (append_block_grows block s Hwf) as (s1 & Happ & G1).
  exists s1. split; [done|]. rewrite write_unfold, Happ in Hw.
  destruct (last block || _); [|done].
  destruct G1 as (_ & Hdb & _). rewrite <- Hdb. clear Hdb Happ Hwf s block.
  pose proof (submit_spec s1) as Hs. simpl in Hs.
  destruct (respond (db s1) (history (db s1)) BEGIN) as [e1|] eqn:Hbegin.
  { rewrite Hs in Hw. injection Hw as <- <-. split.
    - apply buffers_ext. intros b. unfold started. by rewrite buf_set_db, buf_set_metrics.
    - exists 0, BEGIN, e1. simpl. rewrite !app_nil_r. repeat split; try done.
      intros j q' Hj. lia. }
  match type of Hs with context [send_all ?qs ?c] =>
    pose proof (send_all_trace qs c) as Ht; destruct (send_all qs c) as [[e1|] c']
  end.
  - rewrite Hs in Hw. injection Hw as <- <-. split.
    { apply buffers_ext. intros b. unfold started. by rewrite buf_set_db, buf_set_metrics. }
    simpl in Ht. destruct Ht as (Hr & i & q & Hi & Hq & Hh & Hbefore).
    exists (S i), q, e1. unfold plan. simpl.
    rewrite <- app_assoc in Hq. simpl in Hq.
    repeat split; try done.
    + intros [|j] q' Hj Hq'; simpl in *.
      * injection Hq' as <-. by rewrite app_nil_r.
      * specialize (Hbefore j q'). rewrite <- app_assoc in Hbefore.
        apply Hbefore; [lia|done].
    + rewrite Hh, <- !app_assoc. done.
  - by destruct Hs as (s2 & Hs & _); rewrite Hs in Hw.
Qed.
End Sink_theorems.

(** ** The streaming writer (sink.ts, class WritableSink) *)

Section Stream_facts.
Import Stream.
Context {V E : Type} (toJsonString : @Archive.BlockData V → string).
Implicit Types (r : @Runtime E) (ev : @event V E) (evs : list (@event V E))
  (err : E).

Lemma lookup_snoc_Pending (ps : list (@promise E)) p call :
  (ps ++ [p]) !! call = Some Pending ↔
  ps !! call = Some Pending ∨ (call = length ps ∧ p = Pending).
Proof.
  rewrite lookup_app. destruct (ps !! call) eqn:Hl.
  - split; [by left|]. intros [?|[-> _]]; [done|].
    apply lookup_lt_Some in Hl. lia.
  - apply lookup_ge_None in Hl.
    destruct (decide (call = length ps)) as [->|Hne].
    + rewrite Nat.sub_diag. simpl. split; [intros [= ->]; by right|].
      by intros [?|[_ ->]].
    + destruct (call - length ps) as [|k] eqn:Hk; [lia|]. simpl.
      rewrite lookup_nil. split; [done|]. by intros [?|[? _]].
Qed.

Lemma handle_inv_bound r call :
  handle_inv r → drainHandle (sink r) = Some call → call < length (promises r).
Proof. intros Hinv Hh. apply Hinv in Hh. by apply lookup_lt_Some in Hh. Qed.

Lemma settle_inv r call p :
  handle_inv r → drainHandle (sink r) = Some call → p ≠ Pending →
  ∀ s', drainHandle s' = None →
  handle_inv {| sink := s'; promises := <[call := p]> (promises r) |}.
Proof.
  intros Hinv Hh Hp s' Hs' i. simpl. rewrite Hs'. split; [|done].
  intros Hi. destruct (decide (call = i)) as [->|Hne].
  - rewrite list_lookup_insert_eq in Hi by by eapply handle_inv_bound.
    congruence.
  - rewrite list_lookup_insert_ne in Hi by done.
    apply Hinv in Hi. congruence.
Qed.

Lemma step_handle_inv r ev : handle_inv r → handle_inv (step toJsonString r ev).
Proof.
  intros Hinv. pose proof Hinv as Hiff. unfold handle_inv in Hiff.
  destruct ev as [block saturated| |err|]; simpl.
  - unfold write. destruct (error (sink r)) as [e|].
    { intros i. simpl. rewrite lookup_snoc_Pending, Hiff. intuition congruence. }
    destruct saturated; unfold drain; simpl.
    + destruct (drainHandle (sink r)) as [h|] eqn:Hh; intros i; simpl;
        rewrite lookup_snoc_Pending, Hiff, ?Hh; intuition congruence.
    + intros i. simpl. rewrite lookup_snoc_Pending, Hiff. intuition congruence.
  - destruct (listening (sink r)); [|done]. unfold onDrain.
    destruct (drainHandle (sink r)) as [h|] eqn:Hh; [|done].
    by apply settle_inv.
  - destruct (listening (sink r)); [|done]. unfold onError. simpl.
    destruct (drainHandle (sink r)) as [h|] eqn:Hh.
    + by apply settle_inv.
    + intros i. simpl. rewrite ?Hh. apply Hiff.
  - intros i. simpl. apply Hiff.
Qed.

Lemma start_handle_inv sp pr : handle_inv (@start E sp pr).
Proof. intros i. simpl. by rewrite lookup_nil. Qed.

Lemma run_handle_inv r evs : handle_inv r → handle_inv (run toJsonString r evs).
Proof.
  revert r. induction evs as [|ev evs IH]; intros r Hinv; simpl; [done|].
  by apply IH, step_handle_inv.
Qed.

Lemma close_closed (s : @WritableSink E) : listening s = false → close s = s.
Proof. destruct s. simpl. by intros ->. Qed.

(** Once the error is cached and the listeners are off, nothing changes
    the sink any more; every call of [write] is rejected on entry. *)
Lemma run_broken err r evs :
  error (sink r) = Some err → listening (sink r) = false →
  ∃ n, run toJsonString r evs
       = {| sink := sink r;
            promises := promises r ++ replicate n (Rejected (ChannelError err)) |}.
Proof.
  revert r. induction evs as [|ev evs IH]; intros r Herr Hoff.
  - exists 0. simpl. rewrite app_nil_r. by destruct r.
  - change (run toJsonString r (ev :: evs))
      with (run toJsonString (step toJsonString r ev) evs).
    assert (Hstep : ∃ k, step toJsonString r ev
        = {| sink := sink r;
             promises := promises r ++ replicate k (Rejected (ChannelError err)) |}).
    { destruct ev as [block saturated| |e|]; simpl.
      - exists 1. unfold write. by rewrite Herr.
      - exists 0. rewrite Hoff. simpl. rewrite app_nil_r. by destruct r.
      - exists 0. rewrite Hoff. simpl. rewrite app_nil_r. by destruct r.
      - exists 0. rewrite close_closed by done. simpl. by rewrite app_nil_r. }
    destruct Hstep as [k ->].
    destruct (IH {| sink := sink r;
                    promises := promises r
                      ++ replicate k (Rejected (ChannelError err)) |}
                 Herr Hoff) as [n ->]. simpl.
    exists (k + n). by rewrite <- app_assoc, replicate_add.
Qed.

(** C7.  When the stream emits an error that the sink listens to, the
    error is stored, and a call of [write] suspended in [drain()] at that
    moment is rejected with it.  Whatever happens afterwards, the stored
    error stays the same, nothing more is handed to the stream, the
    promises settled so far stay as they are, and every later call of
    [write] is rejected with the stored error, leaving the sink as it
    is. *)
Theorem channel_error_is_cached r err evs call :
  listening (sink r) = true →
  let r1 := step toJsonString r (EmitError err) in
  let r2 := run toJsonString r1 evs in
  error (sink r1) = Some err
  ∧ (drainHandle (sink r) = Some call → promises r !! call = Some Pending →
     promises r1 !! call = Some (Rejected (ChannelError err)))
  ∧ error (sink r2) = Some err
  ∧ chunks (sink r2) = chunks (sink r1)
  ∧ (∃ n, promises r2
          = promises r1 ++ replicate n (Rejected (ChannelError err)))
  ∧ ∀ block saturated,
      write toJsonString block saturated r2
      = {| sink := sink r2;
           promises := promises r2 ++ [Rejected (ChannelError err)] |}.
Proof.
  intros Hon r1 r2.
  assert (Herr : error (sink r1) = Some err).
  { unfold r1. simpl. rewrite Hon. unfold onError. simpl.
    by destruct (drainHandle (sink r)). }
  assert (Hoff : listening (sink r1) = false).
  { unfold r1. simpl. rewrite Hon. unfold onError. simpl.
    by destruct (drainHandle (sink r)). }
  destruct (run_broken err r1 evs Herr Hoff) as [n Hrun].
  fold r2 in Hrun. rewrite Hrun. simpl.
  split; [done|]. split.
  { intros Hh Hp. unfold r1. simpl. rewrite Hon. unfold onError. simpl.
    rewrite Hh. simpl. apply list_lookup_insert_eq. by apply lookup_lt_Some in Hp. }
  split; [done|]. split; [done|]. split; [by exists n|].
  intros block saturated. unfold write. simpl. by rewrite Herr.
Qed.

Lemma no_pending_no_handle r :
  handle_inv r →
  forallb (negb ∘ is_pending) (promises r) = true →
  drainHandle (sink r) = None.
Proof.
  intros Hinv Hall. destruct (drainHandle (sink r)) as [h|] eqn:Hh; [|done].
  apply Hinv in Hh. rewrite forallb_forall in Hall.
  apply list_elem_of_lookup_2, list_elem_of_In, Hall in Hh. done.
Qed.

Lemma sequential_no_assertion r evs :
  handle_inv r →
  Forall (λ p, p ≠ Rejected AssertionError) (promises r) →
  sequential toJsonString r evs = true →
  Forall (λ p, p ≠ Rejected AssertionError) (promises (run toJsonString r evs)).
Proof.
  revert r. induction evs as [|ev evs IH]; intros r Hinv Hno Hseq; simpl in *;
    [done|].
  apply andb_true_iff in Hseq as [Hev Hseq].
  apply IH; [by apply step_handle_inv| |done]. clear IH Hseq.
  destruct ev as [block saturated| |err|]; simpl.
  - unfold write, drain.
    destruct (error (sink r)); [|destruct saturated]; simpl;
      rewrite ?(no_pending_no_handle r Hinv Hev); simpl;
      apply Forall_app_2; try done; by apply Forall_singleton.
  - destruct (listening (sink r)); [|done]. unfold onDrain.
    destruct (drainHandle (sink r)); [|done]. simpl. by apply Forall_insert.
  - destruct (listening (sink r)); [|done]. unfold onError. simpl.
    destruct (drainHandle (sink r)); [|done]. simpl. by apply Forall_insert.
  - done.
Qed.

(** C8.  In every state the sink can reach, whatever the events, at most
    one call of [write] is suspended, and it is the one [drainHandle]
    stands for.  A call that has to wait while the handle is taken ends
    in the AssertionError, which is not an error of the stream; the
    waiter in place is left alone.  When [write] is only called while no
    earlier call is pending, no call ends in the AssertionError. *)
Theorem single_drain_waiter sp pr evs :
  let r := run toJsonString (start sp pr) evs in
  (∀ i j, promises r !! i = Some Pending → promises r !! j = Some Pending →
          i = j)
  ∧ (∀ call, promises r !! call = Some Pending
             ↔ drainHandle (sink r) = Some call)
  ∧ (∀ block, error (sink r) = None → is_Some (drainHandle (sink r)) →
       promises (write toJsonString block true r)
       = promises r ++ [Rejected AssertionError]
       ∧ drainHandle (sink (write toJsonString block true r))
         = drainHandle (sink r))
  ∧ (∀ err, AssertionError ≠ ChannelError err)
  ∧ (sequential toJsonString (start sp pr) evs = true →
     Forall (λ p, p ≠ Rejected AssertionError) (promises r)).
Proof.
  intros r.
  assert (Hinv : handle_inv r) by apply run_handle_inv, start_handle_inv.
  split.
  { intros i j Hi Hj. apply Hinv in Hi, Hj. congruence. }
  split; [apply Hinv|]. split.
  { intros block Herr [h Hh]. unfold write, drain. rewrite Herr. simpl.
    by rewrite Hh. }
  split; [done|].
  intros Hseq. apply sequential_no_assertion; [apply start_handle_inv|done|done].
Qed.
End Stream_facts.

(** ** The properties on the sample inputs *)

Section Sink_samples.
Import Archive Samples.

Lemma fresh_sink_wf c : Sink_wf (fresh_sink c).
Proof. apply PostgresSink_new_wf. Qed.

Lemma flush_policy_witness :
  Sink_wf (fresh_sink accepting)
  ∧ quiet (fresh_sink accepting) [block1; block1] = true
  ∧ (write_all (take 2 [block1; block1]) (fresh_sink accepting)).1 = inr ()
  ∧ db (write_all (take 2 [block1; block1]) (fresh_sink accepting)).2
    = db (fresh_sink accepting)
  ∧ Forall2 le
      (sizes (write_all (take 1 [block1; block1]) (fresh_sink accepting)).2)
      (sizes (write_all (take 2 [block1; block1]) (fresh_sink accepting)).2)
  ∧ ∃ s1, append_block last_block (fresh_sink accepting) = (inr (), s1)
      ∧ write last_block (fresh_sink accepting) = submit s1.
Proof.
  assert (Hwf : Sink_wf (fresh_sink accepting)) by apply fresh_sink_wf.
  assert (Hq : quiet (fresh_sink accepting) [block1; block1] = true)
    by (vm_compute; reflexivity).
  destruct (flush_policy last_block [block1; block1] (fresh_sink accepting) Hwf)
    as [Hquiet (s1 & Happ & Hflush & _)].
  destruct (Hquiet Hq 1 2 (Nat.le_succ_diag_r 1)) as (Hok & Hdb & Hsz).
  destruct (Hflush (or_introl eq_refl)) as [Hw _].
  split; [exact Hwf|]. split; [exact Hq|]. split; [exact Hok|].
  split; [exact Hdb|]. split; [exact Hsz|]. exists s1. by split.
Defined.

Lemma flush_statement_order_witness :
  Sink_wf one_block
  ∧ (∀ h q, respond (db one_block) h q = None)
  ∧ text <$> pending one_block
    = ["INSERT INTO block (id, height, hash, parent_hash, timestamp, spec_version) SELECT * FROM unnest($1::text[], $2::numeric[], $3::text[], $4::text[], $5::timestamptz[], $6::int[]) AS i(id, height, hash, parent_hash, timestamp, spec_version)";
       "INSERT INTO extrinsic (id, block_id, name, index_in_block, signature, success, hash, call_id) SELECT * FROM unnest($1::text[], $2::text[], $3::text[], $4::integer[], $5::jsonb[], $6::bool[], $7::text[], $8::text[]) AS i(id, block_id, name, index_in_block, signature, success, hash, call_id)"]
  ∧ history (db (submit one_block).2)
    = history (db one_block) ++ BEGIN :: pending one_block ++ [COMMIT].
Proof.
  assert (Hwf : Sink_wf one_block).
  { destruct (append_block_grows block1 (fresh_sink accepting) (fresh_sink_wf _))
      as (s1 & Happ & G). unfold one_block. rewrite Happ. apply G. }
  assert (Hacc : ∀ h q, respond (db one_block) h q = None) by done.
  destruct (flush_statement_order one_block Hwf)
    as (_ & _ & (n & closing & Hh & _ & Hok) & Hsucc).
  destruct (Hok (Hsucc Hacc)) as [-> ->].
  rewrite firstn_all in Hh.
  split; [exact Hwf|]. split; [exact Hacc|]. split; [|exact Hh].
  vm_compute. reflexivity.
Defined.

Lemma failed_flush_keeps_rows_witness :
  Sink_wf (fresh_sink refusing_commit)
  ∧ write last_block (fresh_sink refusing_commit)
    = (inl (DbError "commit failed"),
       (write last_block (fresh_sink refusing_commit)).2)
  ∧ ∃ s1, append_block last_block (fresh_sink refusing_commit) = (inr (), s1)
      ∧ buffers (write last_block (fresh_sink refusing_commit)).2 = buffers s1
      ∧ size <$> buffers s1 = [0; 1; 1; 0; 0; 0].
Proof.
  assert (Hwf : Sink_wf (fresh_sink refusing_commit)) by apply fresh_sink_wf.
  assert (Hw : write last_block (fresh_sink refusing_commit)
               = (inl (DbError "commit failed"),
                  (write last_block (fresh_sink refusing_commit)).2))
    by (vm_compute; reflexivity).
  destruct (failed_flush_keeps_rows last_block (fresh_sink refusing_commit)
              _ _ Hwf Hw)
    as (s1 & Happ & Hbuf & _).
  split; [exact Hwf|]. split; [exact Hw|]. exists s1.
  split; [exact Happ|]. split; [exact Hbuf|].
  vm_compute in Happ. injection Happ as <-. vm_compute. reflexivity.
Defined.

(** C1, the claim as stated fails: when it is [BEGIN] that fails, the
    error is raised and no [ROLLBACK] is attempted. *)
Lemma begin_failure_sends_no_rollback :
  (write last_block (fresh_sink refusing_begin)).1
  = inl (DbError "connection lost")
  ∧ history (db (write last_block (fresh_sink refusing_begin)).2) = [BEGIN]
  ∧ ROLLBACK ∉ history (db (write last_block (fresh_sink refusing_begin)).2).
Proof.
  assert (Hh : history (db (write last_block (fresh_sink refusing_begin)).2)
               = [BEGIN]) by (vm_compute; reflexivity).
  rewrite Hh. split; [vm_compute; reflexivity|]. split; [done|].
  intros Hin. apply list_elem_of_singleton in Hin. discriminate.
Qed.
End Sink_samples.

Section Stream_samples.
Import Samples Stream.

Lemma channel_error_is_cached_witness :
  listening (sink waiting) = true
  ∧ drainHandle (sink waiting) = Some 0
  ∧ promises waiting !! 0 = Some Pending
  ∧ promises (step json waiting (EmitError "EPIPE")) !! 0
    = Some (Rejected (ChannelError "EPIPE"))
  ∧ error (sink (run json (step json waiting (EmitError "EPIPE"))
                     [Write block1 false; EmitDrain; EmitError "EIO"]))
    = Some "EPIPE".
Proof.
  assert (Hon : listening (sink waiting) = true) by reflexivity.
  assert (Hh : drainHandle (sink waiting) = Some 0) by reflexivity.
  assert (Hp : promises waiting !! 0 = Some Pending) by reflexivity.
  destruct (channel_error_is_cached json waiting "EPIPE"
              [Write block1 false; EmitDrain; EmitError "EIO"] 0 Hon)
    as (_ & Hrej & Herr & _).
  split; [exact Hon|]. split; [exact Hh|]. split; [exact Hp|].
  split; [by apply Hrej|exact Herr].
Defined.

Lemma single_drain_waiter_witness :
  sequential json (start None None) one_at_a_time = true
  ∧ Forall (λ p, p ≠ Rejected AssertionError)
           (promises (run json (start None None) one_at_a_time)).
Proof.
  assert (Hseq : sequential json (start None None) one_at_a_time = true)
    by reflexivity.
  split; [exact Hseq|].
  destruct (single_drain_waiter json None None one_at_a_time)
    as (_ & _ & _ & _ & Hno).
  by apply Hno.
Defined.
End Stream_samples.


(** ** Further properties of the column buffer and the transactional writer *)

Section Insert_more.
Import Archive.
Context {V E : Type}.
Implicit Types (ins : @Insert V) (row : @Row V) (defs : @TableColumns V)
  (rows : list (@Row V)).

Lemma with_row_column_of row rows defs :
  with_row row defs (column_of rows <$> defs) = column_of (rows ++ [row]) <$> defs.
Proof.
  induction defs as [|[name def] defs IH]; [done|].
  rewrite !fmap_cons. unfold with_row in *. simpl. rewrite IH.
  unfold column_of. simpl. by rewrite fmap_app.
Qed.

Lemma addMany_column_of rows : ∀ rows0 ins,
  Insert_wf ins → columns ins = column_of rows0 <$> mapping ins →
  ∃ ins', addMany rows ins = Some ins' ∧ Insert_wf ins'
    ∧ same_table ins ins'
    ∧ columns ins' = column_of (rows0 ++ rows) <$> mapping ins.
Proof.
  induction rows as [|row rows IH]; intros rows0 ins Hwf Hc; simpl.
  - exists ins. rewrite app_nil_r. split; [done|]. split; [done|]. by split.
  - rewrite add_spec by done. simpl.
    destruct (IH (rows0 ++ [row])
      (Insert_with_columns ins (with_row row (mapping ins) (columns ins))))
      as (ins' & Hadd & Hwf' & (Ht & Hm & Hq) & Hc').
    { by apply add_wf. }
    { simpl. by rewrite Hc, with_row_column_of. }
    exists ins'. rewrite <- app_assoc in Hc'. simpl in *.
    split; [done|]. split; [done|]. split; [by split|done].
Qed.

Lemma addMany_app rows rows' ins :
  addMany (rows ++ rows') ins = addMany rows ins ≫= addMany rows'.
Proof.
  revert ins. induction rows as [|row rows IH]; intros ins; simpl; [done|].
  destruct (add row ins) as [ins1|]; simpl; [apply IH|done].
Qed.

(** X9.  Rows added to a new buffer with distinct column names end up
    column by column, in the order added: the column declared under a
    name holds that field of every row, or what the column's transform
    makes of it when the column has one, and these columns are what the
    bulk statement carries.  [size] is the number of rows (0 when no
    column is declared), and adding in two batches is the same as adding
    at once. *)
Theorem addMany_fills_columns (tbl : string) defs rows :
  NoDup defs.*1 →
  ∃ ins, addMany rows (Insert_new tbl defs) = Some ins
    ∧ columns ins
      = (λ d, (d.1, (λ row, match col_map d.2 with
                            | Some transform => transform (row d.1)
                            | None => row d.1
                            end) <$> rows)) <$> defs
    ∧ values (statement ins)
      = (λ d, (λ row, match col_map d.2 with
                      | Some transform => transform (row d.1)
                      | None => row d.1
                      end) <$> rows) <$> defs
    ∧ size ins = (if decide (defs = []) then 0 else length rows)
    ∧ ∀ more, addMany (rows ++ more) (Insert_new tbl defs) = addMany more ins.
Proof.
  intros Hnd.
  destruct (addMany_column_of rows [] (Insert_new tbl defs)) as
    (ins & Hadd & Hwf & _ & Hc).
  { by apply Insert_new_wf. }
  { simpl. by rewrite makeColumns_spec. }
  simpl in Hc. exists ins. split; [done|]. split; [done|].
  split; [|split].
  - unfold statement. simpl. rewrite Hc, <- list_fmap_compose. done.
  - unfold size. rewrite Hc. destruct defs as [|[name def] defs]; simpl; [done|].
    by rewrite length_fmap.
  - intros more. by rewrite addMany_app, Hadd.
Qed.
End Insert_more.

Section Sink_more.
Import Archive.
Context {V E : Type}.
Implicit Types (s : @PostgresSink V E) (c : @Client V E) (b : buffer)
  (block : @BlockData V) (blocks : list (@BlockData V)).

(** The two ways [submit] ends, with the state it leaves. *)
Lemma submit_cases s :
  (∃ e c, submit s = (inl (DbError e), set_db c (started s)))
  ∨ (∃ c, submit s = (inr (), flushed c s)
          ∧ history c = history (db s) ++ plan s
          ∧ respond c = respond (db s)
          ∧ ∀ i q, plan s !! i = Some q →
              respond (db s) (history (db s) ++ take i (plan s)) q = None).
Proof.
  unfold submit.
  rewrite (bind_ok this _ s s s) by done.
  rewrite (bind_ok (speed_call SpeedStart) _ s () (started s)) by done.
  change (Insert_query MetadataBuf ≫= _) with (@query_all V E all_buffers).
  pose proof (tx_spec (query_all all_buffers) (started s) (pending s)) as Htx.
  simpl in Htx.
  assert (Hq : ∀ c, query_all all_buffers (set_db c (started s)) =
    let '(r, c') := send_all (pending s) c in (settled r, set_db c' (started s))).
  { intros c. by rewrite query_all_spec. }
  specialize (Htx Hq). clear Hq.
  destruct (respond (db s) (history (db s)) BEGIN) as [e|] eqn:Hb.
  { left. exists e. eexists. by rewrite (bind_fail _ _ _ _ _ Htx). }
  match type of Htx with context [send_all ?qs ?c] =>
    pose proof (send_all_trace qs c) as Ht; destruct (send_all qs c) as [[e|] c']
  end.
  { left. exists e. eexists. by rewrite (bind_fail _ _ _ _ _ Htx). }
  right. exists c'. rewrite (bind_ok _ _ _ _ _ Htx).
  simpl in Ht. destruct Ht as (Hr & Hh & Hall). split; [|split; [|split]].
  - clear. unfold mbind, Task_bind, bind.
    destruct s as [? ? ? ? ? ? ? [sp|] [pr|]]; unfold flushed; simpl;
      by rewrite <- ?app_assoc.
  - rewrite Hh, <- app_assoc. done.
  - done.
  - intros [|i] q; simpl.
    + intros [= <-]. by rewrite app_nil_r.
    + intros Hq. specialize (Hall i q Hq). by rewrite <- app_assoc in Hall.
Qed.

Lemma size_clear (ins : @Insert V) : NoDup (mapping ins).*1 → size (clear ins) = 0.
Proof.
  intros Hnd. unfold size. simpl. rewrite makeColumns_spec by done.
  by destruct (mapping ins) as [|[? ?] ?].
Qed.

Lemma flushed_wf c s : Sink_wf s → Sink_wf (flushed c s).
Proof.
  intros Hwf b. destruct (Hwf b) as ([Hnd Hk] & Ht & Hq).
  destruct b; (split; [by apply clear_wf|by split]).
Qed.

Lemma buf_flushed c s b : buf b (flushed c s) = clear (buf b s).
Proof. by destruct b. Qed.

Lemma pending_flushed c s : Sink_wf s → pending (flushed c s) = [].
Proof.
  intros Hwf. unfold pending, buffers, all_buffers. simpl.
  rewrite !filter_cons, filter_nil.
  repeat (rewrite decide_False;
    [|intros Hne; apply Hne, size_clear;
      first [apply (Hwf MetadataBuf)|apply (Hwf HeaderBuf)|apply (Hwf ExtrinsicBuf)
            |apply (Hwf CallBuf)|apply (Hwf EventBuf)|apply (Hwf WarningBuf)]]).
  done.
Qed.

(** X10.  After a flush that succeeded every buffer of the sink is empty
    and still well formed, nothing is pending, and the client has
    received [BEGIN], the pending inserts and [COMMIT], in this order. *)
Theorem successful_flush_empties s :
  Sink_wf s →
  (submit s).1 = inr () →
  Forall (λ n, n = 0) (sizes (submit s).2)
  ∧ pending (submit s).2 = []
  ∧ Sink_wf (submit s).2
  ∧ history (db (submit s).2) = history (db s) ++ plan s.
Proof.
  intros Hwf Hok.
  destruct (submit_cases s) as [(e & c & Hs)|(c & Hs & Hh & _)];
    rewrite Hs in Hok |- *; [done|]. simpl.
  split; [|split; [by apply pending_flushed|split; [by apply flushed_wf|done]]].
  unfold sizes, buffers. rewrite <- list_fmap_compose.
  apply Forall_fmap, Forall_forall. intros b _. simpl. rewrite buf_flushed.
  apply size_clear, Hwf.
Qed.

(** X11.  The metrics of a flush: when it succeeds the speed tracker gets
    one start and one stop and the progress tracker one increment, both
    with the number of header rows buffered before the flush; when it
    fails the speed tracker gets the start only and the progress tracker
    nothing.  A tracker that is absent stays absent. *)
Theorem flush_metrics s :
  match (submit s).1 with
  | inr _ =>
      speed (submit s).2
      = (.++ [SpeedStart; SpeedStop (size (headerInsert s))]) <$> speed s
      ∧ progress (submit s).2 = (.++ [size (headerInsert s)]) <$> progress s
  | inl _ =>
      speed (submit s).2 = (.++ [SpeedStart]) <$> speed s
      ∧ progress (submit s).2 = progress s
  end.
Proof.
  destruct (submit_cases s) as [(e & c & Hs)|(c & Hs & _)]; by rewrite Hs.
Qed.

Lemma accepting_submit s :
  accepts_all (db s) →
  ∃ c, submit s = (inr (), flushed c s)
       ∧ history c = history (db s) ++ plan s ∧ accepts_all c.
Proof.
  intros Hacc.
  destruct (submit_cases s) as [(e & c & Hs)|(c & Hs & Hh & Hr & _)].
  - exfalso. revert Hs. unfold submit.
    rewrite (bind_ok this _ s s s) by done.
    rewrite (bind_ok (speed_call SpeedStart) _ s () (started s)) by done.
    change (Insert_query MetadataBuf ≫= _) with (@query_all V E all_buffers).
    pose proof (tx_spec (query_all all_buffers) (started s) (pending s)) as Htx.
    simpl in Htx.
    assert (Hq : ∀ c, query_all all_buffers (set_db c (started s)) =
      let '(r, c') := send_all (pending s) c in
      (settled r, set_db c' (started s))).
    { intros c0. by rewrite query_all_spec. }
    specialize (Htx Hq). clear Hq. rewrite Hacc in Htx.
    match type of Htx with context [send_all ?qs ?c] =>
      pose proof (send_all_trace qs c) as Ht; destruct (send_all qs c) as [[e'|] c']
    end.
    + simpl in Ht. destruct Ht as (_ & i & q & _ & Hq & _). by rewrite Hacc in Hq.
    + rewrite (bind_ok _ _ _ _ _ Htx). clear. unfold mbind, Task_bind, bind.
      by destruct s as [? ? ? ? ? ? ? [sp|] [pr|]].
  - exists c. split; [done|]. split; [done|]. intros h q. rewrite Hr. apply Hacc.
Qed.

Lemma write_accepting block s :
  Sink_wf s → accepts_all (db s) →
  ∃ s', write block s = (inr (), s') ∧ Sink_wf s' ∧ accepts_all (db s')
    ∧ size (headerInsert s') ≤ 20
    ∧ (last block = true → Forall (λ n, n = 0) (sizes s')).
Proof.
  intros Hwf Hacc.
  destruct (append_block_grows block s Hwf) as (s1 & Happ & Hwf1 & Hdb & _).
  rewrite write_unfold, Happ.
  destruct (last block || bool_decide (20 < size (headerInsert s1))) eqn:Htest.
  - rewrite <- Hdb in Hacc.
    destruct (accepting_submit s1 Hacc) as (c & Hs & _ & Hacc').
    exists (flushed c s1). split; [done|]. split; [by apply flushed_wf|].
    split; [done|].
    assert (Hz : ∀ b, size (buf b (flushed c s1)) = 0).
    { intros b. rewrite buf_flushed. apply size_clear, Hwf1. }
    split; [change (size (buf HeaderBuf (flushed c s1)) ≤ 20); rewrite Hz; lia|].
    intros _.
    unfold sizes, buffers. rewrite <- list_fmap_compose.
    apply Forall_fmap, Forall_forall. intros b _. apply Hz.
  - apply orb_false_iff in Htest as [Hlast Hsz].
    apply bool_decide_eq_false in Hsz.
    exists s1. split; [done|]. split; [done|]. split; [by rewrite Hdb|].
    split; [lia|]. by rewrite Hlast.
Qed.

Lemma write_all_snoc blocks block s :
  write_all (blocks ++ [block]) s =
  match write_all blocks s with
  | (inr _, s1) => write block s1
  | (inl e, s1) => (inl e, s1)
  end.
Proof.
  rewrite write_all_app. destruct (write_all blocks s) as [[e|[]] s1]; [done|].
  simpl. unfold mbind, Task_bind, bind, ret.
  by destruct (write block s1) as [[?|[]] ?].
Qed.

Lemma write_all_accepting blocks s :
  Sink_wf s → accepts_all (db s) →
  ∃ s', write_all blocks s = (inr (), s') ∧ Sink_wf s' ∧ accepts_all (db s').
Proof.
  revert s. induction blocks as [|block blocks IH]; intros s Hwf Hacc; simpl.
  - by exists s.
  - destruct (write_accepting block s Hwf Hacc) as (s1 & Hw & Hwf1 & Hacc1 & _).
    unfold mbind, Task_bind, bind. rewrite Hw. by apply IH.
Qed.

(** X12.  With a server that accepts every statement no call of [write]
    fails, and after every call the header buffer holds at most 20
    rows. *)
Theorem header_buffer_bounded blocks block s :
  Sink_wf s → accepts_all (db s) →
  (write_all (blocks ++ [block]) s).1 = inr ()
  ∧ size (headerInsert (write_all (blocks ++ [block]) s).2) ≤ 20.
Proof.
  intros Hwf Hacc.
  destruct (write_all_accepting blocks s Hwf Hacc) as (s1 & Hw1 & Hwf1 & Hacc1).
  destruct (write_accepting block s1 Hwf1 Hacc1) as (s2 & Hw2 & _ & _ & Hsz & _).
  by rewrite write_all_snoc, Hw1, Hw2.
Qed.

(** X13.  With a server that accepts every statement, a block marked
    [last] leaves every buffer empty: nothing written so far stays
    unflushed. *)
Theorem last_block_drains blocks block s :
  Sink_wf s → accepts_all (db s) → last block = true →
  Forall (λ n, n = 0) (sizes (write_all (blocks ++ [block]) s).2)
  ∧ pending (write_all (blocks ++ [block]) s).2 = [].
Proof.
  intros Hwf Hacc Hlast.
  destruct (write_all_accepting blocks s Hwf Hacc) as (s1 & Hw1 & Hwf1 & Hacc1).
  destruct (append_block_grows block s1 Hwf1) as (s2 & Happ & Hwf2 & Hdb & _).
  rewrite write_all_snoc, Hw1, write_unfold, Happ, Hlast. simpl.
  rewrite <- Hdb in Hacc1.
  destruct (accepting_submit s2 Hacc1) as (c & -> & _). simpl. split.
  - unfold sizes, buffers. rewrite <- list_fmap_compose.
    apply Forall_fmap, Forall_forall. intros b _. simpl. rewrite buf_flushed.
    apply size_clear, Hwf2.
  - by apply pending_flushed.
Qed.

Lemma bind_inv {A B} (m : Task A) (k : A → Task B) s y s' :
  (m ≫= k) s = (inr y, s') → ∃ x s1, m s = (inr x, s1) ∧ k x s1 = (inr y, s').
Proof.
  unfold mbind, Task_bind, bind. destruct (m s) as [[e|x] s1]; [done|]. eauto.
Qed.

Lemma on_buffer_inv b (f : Insert → option Insert) s (x : ()) s1 :
  on_buffer b f s = (inr x, s1) →
  ∃ ins', f (buf b s) = Some ins' ∧ s1 = set_buf b ins' s.
Proof.
  unfold on_buffer. destruct (f (buf b s)) as [ins'|]; [|done].
  intros [= _ <-]. eauto.
Qed.

(** The appends of [write] put exactly one row in the header buffer. *)
Lemma append_block_header block s s1 :
  Sink_wf s → mapping (headerInsert s) ≠ [] →
  append_block block s = (inr (), s1) →
  size (headerInsert s1) = S (size (headerInsert s))
  ∧ mapping (headerInsert s1) = mapping (headerInsert s).
Proof.
  intros Hwf Hne. unfold append_block.
  intros (x0 & s0 & H0 & H)%bind_inv.
  assert (Hh0 : headerInsert s0 = headerInsert s).
  { destruct (metadata block).
    - apply on_buffer_inv in H0 as (? & _ & ->). done.
    - unfold ret in H0. by injection H0 as _ <-. }
  apply bind_inv in H as (? & sa & Ha & H).
  apply on_buffer_inv in Ha as (ins' & Hadd & ->).
  apply bind_inv in H as (? & sb & Hb & H).
  apply on_buffer_inv in Hb as (? & _ & ->).
  apply bind_inv in H as (? & sc & Hc & H).
  apply on_buffer_inv in Hc as (? & _ & ->).
  apply bind_inv in H as (? & sd & Hd & H).
  apply on_buffer_inv in Hd as (? & _ & ->).
  assert (Hh : headerInsert s1 = ins').
  { destruct (warnings block).
    - apply on_buffer_inv in H as (? & _ & ->). done.
    - unfold ret in H. by injection H as <-. }
  rewrite Hh. simpl in Hadd. rewrite Hh0 in Hadd.
  rewrite add_spec in Hadd by apply (Hwf HeaderBuf). injection Hadd as <-.
  rewrite size_with_row by apply (Hwf HeaderBuf).
  by rewrite decide_False.
Qed.

Lemma write_accounted block s done :
  Sink_wf s → mapping (headerInsert s) ≠ [] → accepts_all (db s) →
  progress s = Some done →
  ∃ s' done', write block s = (inr (), s') ∧ Sink_wf s'
    ∧ mapping (headerInsert s') ≠ [] ∧ accepts_all (db s')
    ∧ progress s' = Some done'
    ∧ sum_list done' + size (headerInsert s')
      = sum_list done + size (headerInsert s) + 1.
Proof.
  intros Hwf Hne Hacc Hpr.
  destruct (append_block_grows block s Hwf) as (s1 & Happ & Hwf1 & Hdb & _ & Hp1 & _).
  destruct (append_block_header block s s1 Hwf Hne Happ) as [Hsz Hm].
  rewrite write_unfold, Happ.
  destruct (last block || bool_decide (20 < size (headerInsert s1))).
  - rewrite <- Hdb in Hacc.
    destruct (accepting_submit s1 Hacc) as (c & Hs & _ & Hacc').
    exists (flushed c s1), (done ++ [size (headerInsert s1)]).
    split; [done|]. split; [by apply flushed_wf|]. split; [simpl; congruence|].
    split; [done|]. split; [simpl; by rewrite Hp1, Hpr|].
    rewrite sum_list_with_app. simpl.
    rewrite size_clear by apply (Hwf1 HeaderBuf). lia.
  - exists s1, done. split; [done|]. split; [done|]. split; [congruence|].
    split; [by rewrite Hdb|]. split; [congruence|lia].
Qed.

(** X14.  With a server that accepts every statement, every block
    written is counted once: the increments reported to the progress
    tracker plus the header rows still buffered add up to the blocks
    written. *)
Theorem blocks_accounted blocks s done :
  Sink_wf s → mapping (headerInsert s) ≠ [] → accepts_all (db s) →
  progress s = Some done →
  ∃ done', progress (write_all blocks s).2 = Some done'
    ∧ sum_list done' + size (headerInsert (write_all blocks s).2)
      = sum_list done + size (headerInsert s) + length blocks.
Proof.
  revert s done. induction blocks as [|block blocks IH];
    intros s done Hwf Hne Hacc Hpr; simpl.
  - exists done. split; [done|lia].
  - destruct (write_accounted block s done Hwf Hne Hacc Hpr)
      as (s1 & done1 & Hw & Hwf1 & Hne1 & Hacc1 & Hpr1 & Hsum).
    unfold mbind, Task_bind, bind. rewrite Hw.
    destruct (IH s1 done1 Hwf1 Hne1 Hacc1 Hpr1) as (done' & Hp' & Hsum').
    exists done'. split; [done|lia].
Qed.
End Sink_more.

(** ** Further properties of the streaming writer *)

Section Stream_more.
Import Stream.
Context {V E : Type} (toJsonString : @Archive.BlockData V → string).
Implicit Types (r : @Runtime E) (ev : @event V E) (evs : list (@event V E))
  (err : E).

Lemma run_cons r ev evs :
  run toJsonString r (ev :: evs) = run toJsonString (step toJsonString r ev) evs.
Proof. done. Qed.

Lemma run_app r evs evs' :
  run toJsonString r (evs ++ evs')
  = run toJsonString (run toJsonString r evs) evs'.
Proof. unfold run. apply fold_left_app. Qed.

Lemma chunks_run r evs :
  error (sink r) = None →
  chunks (sink (run toJsonString r evs))
  = chunks (sink r)
    ++ flat_map (λ block, [toJsonString block; String "010"%char EmptyString])
                (accepted (listening (sink r)) evs).
Proof.
  intros Herr.
  revert r Herr. induction evs as [|ev evs IH]; intros r Herr.
  - simpl. by rewrite app_nil_r.
  - rewrite run_cons. destruct ev as [block saturated| |err|]; simpl accepted.
    + assert (Hs : error (sink (step toJsonString r (Write block saturated))) = None
        ∧ listening (sink (step toJsonString r (Write block saturated)))
          = listening (sink r)
        ∧ chunks (sink (step toJsonString r (Write block saturated)))
          = chunks (enqueue toJsonString block (sink r))).
      { simpl. unfold write, drain. rewrite Herr.
        destruct saturated; simpl; [|done].
        by destruct (drainHandle (sink r)). }
      destruct Hs as (He & Hl & Hc). rewrite IH, Hl, Hc by done. simpl.
      by rewrite <- app_assoc.
    + assert (Hs : error (sink (step toJsonString r EmitDrain)) = None
        ∧ listening (sink (step toJsonString r EmitDrain)) = listening (sink r)
        ∧ chunks (sink (step toJsonString r EmitDrain)) = chunks (sink r)).
      { simpl. destruct (listening (sink r)) eqn:Hl; [|done]. unfold onDrain.
        by destruct (drainHandle (sink r)). }
      destruct Hs as (He & Hl & Hc). by rewrite IH, Hl, Hc.
    + destruct (listening (sink r)) eqn:Hl.
      * assert (Hs : error (sink (step toJsonString r (EmitError err))) = Some err
          ∧ listening (sink (step toJsonString r (EmitError err))) = false
          ∧ chunks (sink (step toJsonString r (EmitError err))) = chunks (sink r)).
        { simpl. rewrite Hl. unfold onError. simpl.
          by destruct (drainHandle (sink r)). }
        destruct Hs as (He & Hoff & Hc).
        destruct (run_broken toJsonString err _ evs He Hoff) as [n Hrun].
        assert (Hk : chunks (sink (run toJsonString
                       (step toJsonString r (EmitError err)) evs))
                     = chunks (sink (step toJsonString r (EmitError err))))
          by (by rewrite Hrun).
        by rewrite Hk, Hc, app_nil_r.
      * simpl step. rewrite Hl. rewrite IH by done. by rewrite Hl.
    + by rewrite IH.
Qed.

(** X15.  What the stream receives: for every call of [write] made before
    an error is observed, in call order, the text of the block followed
    by a chunk that is the line feed (the one character of code 10), and
    nothing else.  A call that ends in the AssertionError has handed over
    its block all the same; after [close()] errors are not observed and
    calls keep handing over. *)
Theorem stream_receives_accepted_blocks sp pr evs :
  chunks (sink (run toJsonString (start sp pr) evs))
  = flat_map (λ block, [toJsonString block; String "010"%char EmptyString])
             (accepted true evs).
Proof. by rewrite (chunks_run (start sp pr) evs eq_refl). Qed.

Lemma step_keeps_settled r ev i p :
  handle_inv r → promises r !! i = Some p → p ≠ Pending →
  promises (step toJsonString r ev) !! i = Some p.
Proof.
  intros Hinv Hi Hp.
  assert (Hne : ∀ call, drainHandle (sink r) = Some call → call ≠ i).
  { intros call Hh%Hinv ->. congruence. }
  destruct ev as [block saturated| |err|]; simpl.
  - unfold write, drain. destruct (error (sink r)); [by apply lookup_app_l_Some|].
    destruct saturated; simpl; [|by apply lookup_app_l_Some].
    destruct (drainHandle (sink r)); simpl; by apply lookup_app_l_Some.
  - destruct (listening (sink r)); [|done]. unfold onDrain.
    destruct (drainHandle (sink r)) as [call|] eqn:Hh; [|done]. simpl.
    rewrite list_lookup_insert_ne; [done|by apply Hne].
  - destruct (listening (sink r)); [|done]. unfold onError. simpl.
    destruct (drainHandle (sink r)) as [call|] eqn:Hh; [|done]. simpl.
    rewrite list_lookup_insert_ne; [done|by apply Hne].
  - done.
Qed.

(** X16.  The outcome of a call of [write] that completed or failed
    never changes afterwards. *)
Theorem settled_promise_is_final sp pr evs more i p :
  promises (run toJsonString (start sp pr) evs) !! i = Some p →
  p ≠ Pending →
  promises (run toJsonString (start sp pr) (evs ++ more)) !! i = Some p.
Proof.
  rewrite run_app.
  assert (Hinv : handle_inv (run toJsonString (start sp pr) evs))
    by apply run_handle_inv, start_handle_inv.
  revert Hinv. generalize (run toJsonString (start sp pr) evs). clear evs.
  induction more as [|ev more IH]; intros r Hinv Hi Hp; [done|].
  rewrite run_cons. apply IH; [by apply step_handle_inv| |done].
  by apply step_keeps_settled.
Qed.

Lemma detached_step r ev :
  listening (sink r) = false →
  listening (sink (step toJsonString r ev)) = false
  ∧ error (sink (step toJsonString r ev)) = error (sink r)
  ∧ ∀ i p, promises r !! i = Some p →
           promises (step toJsonString r ev) !! i = Some p.
Proof.
  intros Hoff. destruct ev as [block saturated| |err|]; simpl; rewrite ?Hoff;
    try done.
  unfold write, drain. destruct (error (sink r)) eqn:Herr; simpl.
  { repeat split; try done. intros. by apply lookup_app_l_Some. }
  destruct saturated; simpl;
    [destruct (drainHandle (sink r)); simpl|];
    (split; [done|]; split; [done|]; intros; by apply lookup_app_l_Some).
Qed.

(** X17.  After [close()] no drain and no error is handled any more: the
    stored error stays what it was and no promise handed out before
    changes; a call suspended in [drain()] stays pending. *)
Theorem close_detaches r evs :
  error (sink (run toJsonString (step toJsonString r Close) evs)) = error (sink r)
  ∧ ∀ i p, promises r !! i = Some p →
      promises (run toJsonString (step toJsonString r Close) evs) !! i = Some p.
Proof.
  assert (Hgen : ∀ r', listening (sink r') = false →
    error (sink (run toJsonString r' evs)) = error (sink r')
    ∧ ∀ i p, promises r' !! i = Some p →
        promises (run toJsonString r' evs) !! i = Some p).
  { induction evs as [|ev evs IH]; intros r' Hoff; [done|].
    rewrite run_cons.
    destruct (detached_step r' ev Hoff) as (Hoff' & Herr & Hp).
    destruct (IH _ Hoff') as [Herr' Hp']. split; [congruence|]. auto. }
  apply (Hgen (step toJsonString r Close)). done.
Qed.

Lemma completed_snoc (ps : list (@promise E)) p :
  completed (ps ++ [p]) = completed ps + (if is_fulfilled p then 1 else 0).
Proof. unfold completed. rewrite sum_list_with_app. simpl. lia. Qed.

Lemma completed_settle (ps : list (@promise E)) i p :
  ps !! i = Some Pending →
  completed (<[i := p]> ps) = completed ps + (if is_fulfilled p then 1 else 0).
Proof.
  revert i. induction ps as [|q ps IH]; intros [|i] Hi; try done; simpl in *.
  - injection Hi as ->. unfold completed. simpl. lia.
  - unfold completed in *. simpl. rewrite IH by done. lia.
Qed.

Lemma step_progress r ev :
  handle_inv r →
  progress (sink r) = Some (replicate (completed (promises r)) 1) →
  progress (sink (step toJsonString r ev))
  = Some (replicate (completed (promises (step toJsonString r ev))) 1).
Proof.
  intros Hinv Hpr.
  assert (Hone : ∀ n, replicate n 1 ++ [1] = replicate (n + 1) 1).
  { intros n. by rewrite Nat.add_1_r, replicate_S_end. }
  destruct ev as [block saturated| |err|]; simpl.
  - unfold write, drain. destruct (error (sink r)); simpl.
    { by rewrite completed_snoc, Nat.add_0_r. }
    destruct saturated; simpl.
    + destruct (drainHandle (sink r)); simpl;
        by rewrite completed_snoc, Nat.add_0_r.
    + by rewrite completed_snoc, Hpr, <- Hone.
  - destruct (listening (sink r)); [|done]. unfold onDrain.
    destruct (drainHandle (sink r)) as [call|] eqn:Hh; [|done]. simpl.
    rewrite completed_settle by by apply Hinv. simpl. by rewrite Hpr, <- Hone.
  - destruct (listening (sink r)); [|done]. unfold onError. simpl.
    destruct (drainHandle (sink r)) as [call|] eqn:Hh; [|done]. simpl.
    rewrite completed_settle by by apply Hinv. simpl. by rewrite Nat.add_0_r.
  - done.
Qed.

(** X18.  The progress tracker is told one row for each call of [write]
    that completed, and nothing for a call that failed or is pending. *)
Theorem one_row_per_completed_write sp evs :
  progress (sink (run toJsonString (start sp (Some [])) evs))
  = Some (replicate
            (completed (promises (run toJsonString (start sp (Some [])) evs))) 1).
Proof.
  assert (Hgen : ∀ r, handle_inv r →
    progress (sink r) = Some (replicate (completed (promises r)) 1) →
    progress (sink (run toJsonString r evs))
    = Some (replicate (completed (promises (run toJsonString r evs))) 1)).
  { induction evs as [|ev evs IH]; intros r Hinv Hpr; [done|].
    rewrite !run_cons. apply IH; [by apply step_handle_inv|].
    by apply step_progress. }
  apply Hgen; [apply start_handle_inv|done].
Qed.
End Stream_more.

(** ** Connection options *)

Section Config_facts.
Import Config.
Context (parseInt : string → option Z).

(** X19.  Connection options.  Each of host, database, user and password
    is the value of its variable ([DB_HOST], [DB_NAME], [DB_USER],
    [DB_PASS]) when that is set to a text that is not empty, and
    otherwise its default ([localhost], or [postgres] for the other
    three).  The port is [parseInt] of [DB_PORT] when that is set and not
    empty, and 5432 otherwise.  ssl is switched on, with
    [rejectUnauthorized] off, by any value of [DB_SSL_ENABLED] that is
    not empty, whatever it says, and is absent otherwise.  A variable set
    to the empty text counts as not set. *)
Theorem connection_options_defaults (env : gmap string string) (k v : string) :
  let options := createConnectionOptions parseInt env in
  (set_to env "DB_HOST" v → host options = v)
  ∧ (unset env "DB_HOST" → host options = "localhost")
  ∧ (set_to env "DB_NAME" v → database options = v)
  ∧ (unset env "DB_NAME" → database options = "postgres")
  ∧ (set_to env "DB_USER" v → username options = v)
  ∧ (unset env "DB_USER" → username options = "postgres")
  ∧ (set_to env "DB_PASS" v → password options = v)
  ∧ (unset env "DB_PASS" → password options = "postgres")
  ∧ (set_to env "DB_PORT" v → port options = parseInt v)
  ∧ (unset env "DB_PORT" → port options = Some 5432%Z)
  ∧ (set_to env "DB_SSL_ENABLED" v
     → ssl options = Some {| rejectUnauthorized := false |})
  ∧ (unset env "DB_SSL_ENABLED" → ssl options = None)
  ∧ createConnectionOptions parseInt (<[k := EmptyString]> env)
    = createConnectionOptions parseInt (delete k env).
Proof.
  assert (Hset : ∀ name d, set_to env name v → or_else (env !! name) d = v).
  { intros name d [-> Hv]. simpl. by rewrite decide_False. }
  assert (Hunset : ∀ name d, unset env name → or_else (env !! name) d = d).
  { by intros name d [-> | ->]. }
  simpl.
  split; [by apply Hset|]. split; [by apply Hunset|].
  split; [by apply Hset|]. split; [by apply Hunset|].
  split; [by apply Hset|]. split; [by apply Hunset|].
  split; [by apply Hset|]. split; [by apply Hunset|].
  split; [intros [-> Hv]; by rewrite decide_False|].
  split; [by intros [-> | ->]|].
  split; [intros [-> Hv]; by rewrite decide_False|].
  split; [by intros [-> | ->]|].
  unfold createConnectionOptions, or_else.
  destruct (decide (k = "DB_HOST")) as [->|?];
    [by rewrite !lookup_insert_eq, !lookup_delete_eq,
       !lookup_insert_ne, !lookup_delete_ne by done|].
  destruct (decide (k = "DB_PORT")) as [->|?];
    [by rewrite !lookup_insert_eq, !lookup_delete_eq,
       !lookup_insert_ne, !lookup_delete_ne by done|].
  destruct (decide (k = "DB_NAME")) as [->|?];
    [by rewrite !lookup_insert_eq, !lookup_delete_eq,
       !lookup_insert_ne, !lookup_delete_ne by done|].
  destruct (decide (k = "DB_USER")) as [->|?];
    [by rewrite !lookup_insert_eq, !lookup_delete_eq,
       !lookup_insert_ne, !lookup_delete_ne by done|].
  destruct (decide (k = "DB_PASS")) as [->|?];
    [by rewrite !lookup_insert_eq, !lookup_delete_eq,
       !lookup_insert_ne, !lookup_delete_ne by done|].
  destruct (decide (k = "DB_SSL_ENABLED")) as [->|?];
    [by rewrite !lookup_insert_eq, !lookup_delete_eq,
       !lookup_insert_ne, !lookup_delete_ne by done|].
  by rewrite !lookup_insert_ne, !lookup_delete_ne by done.
Qed.
End Config_facts.

(** ** Sample runs of the further properties *)

Section more_Sink_samples.
Import Archive Samples.

Lemma addMany_fills_columns_witness :
  NoDup extrinsic_sig.*1
  ∧ ∃ ins, addMany [signed; signed2] (Insert_new "extrinsic" extrinsic_sig)
           = Some ins
      ∧ columns ins
        = [("id", ["1-0"; "1-1"]); ("signature", ["<0xsig>"; "<0xabc>"])]
      ∧ values (statement ins) = [["1-0"; "1-1"]; ["<0xsig>"; "<0xabc>"]]
      ∧ size ins = 2.
Proof.
  assert (Hnd : NoDup extrinsic_sig.*1) by (by apply (bool_decide_unpack _)).
  split; [exact Hnd|].
  destruct (addMany_fills_columns "extrinsic" extrinsic_sig
              [signed; signed2] Hnd)
    as (ins & Hadd & Hcols & Hvals & Hsize & _).
  exists ins. split; [exact Hadd|].
  split; [rewrite Hcols; reflexivity|].
  split; [rewrite Hvals; reflexivity|rewrite Hsize; reflexivity].
Defined.

Lemma one_block_wf : Sink_wf one_block.
Proof.
  destruct (append_block_grows block1 (fresh_sink accepting)
              (PostgresSink_new_wf _ _ _ _ _))
    as (s1 & Happ & G).
  unfold one_block. rewrite Happ. apply G.
Qed.

Lemma successful_flush_empties_witness :
  Sink_wf one_block
  ∧ (submit one_block).1 = inr ()
  ∧ sizes one_block = [0; 1; 1; 0; 0; 0]
  ∧ Forall (λ n, n = 0) (sizes (submit one_block).2)
  ∧ history (db (submit one_block).2) = history (db one_block) ++ plan one_block.
Proof.
  assert (Hwf : Sink_wf one_block) by apply one_block_wf.
  assert (Hok : (submit one_block).1 = inr ()) by (vm_compute; reflexivity).
  destruct (successful_flush_empties one_block Hwf Hok) as (Hz & _ & _ & Hh).
  split; [exact Hwf|]. split; [exact Hok|].
  split; [vm_compute; reflexivity|]. split; [exact Hz|exact Hh].
Defined.

Lemma header_buffer_bounded_witness :
  Sink_wf (fresh_sink accepting)
  ∧ accepts_all (db (fresh_sink accepting))
  ∧ (write_all (replicate 24 block1 ++ [block1]) (fresh_sink accepting)).1
    = inr ()
  ∧ size (headerInsert
            (write_all (replicate 24 block1 ++ [block1])
                       (fresh_sink accepting)).2) ≤ 20.
Proof.
  assert (Hwf : Sink_wf (fresh_sink accepting)) by apply PostgresSink_new_wf.
  assert (Hacc : accepts_all (db (fresh_sink accepting))) by (by intros h q).
  destruct (header_buffer_bounded (replicate 24 block1) block1
              (fresh_sink accepting) Hwf Hacc) as [Hok Hle].
  split; [exact Hwf|]. split; [exact Hacc|]. split; [exact Hok|exact Hle].
Defined.

Lemma last_block_drains_witness :
  Sink_wf (fresh_sink accepting)
  ∧ accepts_all (db (fresh_sink accepting))
  ∧ last last_block = true
  ∧ Forall (λ n, n = 0)
      (sizes (write_all ([block1; block1] ++ [last_block])
                        (fresh_sink accepting)).2)
  ∧ pending (write_all ([block1; block1] ++ [last_block])
                       (fresh_sink accepting)).2 = [].
Proof.
  assert (Hwf : Sink_wf (fresh_sink accepting)) by apply PostgresSink_new_wf.
  assert (Hacc : accepts_all (db (fresh_sink accepting))) by (by intros h q).
  assert (Hlast : last last_block = true) by reflexivity.
  destruct (last_block_drains [block1; block1] last_block
              (fresh_sink accepting) Hwf Hacc Hlast) as [Hz Hp].
  split; [exact Hwf|]. split; [exact Hacc|]. split; [exact Hlast|].
  split; [exact Hz|exact Hp].
Defined.

Lemma blocks_accounted_witness :
  Sink_wf counting_sink
  ∧ mapping (headerInsert counting_sink) ≠ []
  ∧ accepts_all (db counting_sink)
  ∧ progress counting_sink = Some []
  ∧ ∃ seen, progress (write_all (replicate 24 block1) counting_sink).2
            = Some seen
      ∧ sum_list seen
        + size (headerInsert (write_all (replicate 24 block1) counting_sink).2)
        = 24.
Proof.
  assert (Hwf : Sink_wf counting_sink) by apply PostgresSink_new_wf.
  assert (Hmap : mapping (headerInsert counting_sink) ≠ []) by done.
  assert (Hacc : accepts_all (db counting_sink)) by (by intros h q).
  assert (Hpr : progress counting_sink = Some []) by reflexivity.
  destruct (blocks_accounted (replicate 24 block1) counting_sink []
              Hwf Hmap Hacc Hpr) as (seen & Hseen & Hsum).
  split; [exact Hwf|]. split; [exact Hmap|]. split; [exact Hacc|].
  split; [exact Hpr|]. exists seen. split; [exact Hseen|exact Hsum].
Defined.
End more_Sink_samples.

Section more_Stream_samples.
Import Samples Stream.

Lemma settled_promise_is_final_witness :
  promises (run json (start None None) [Write block1 true; EmitDrain]) !! 0
  = Some (@Fulfilled string)
  ∧ @Fulfilled string ≠ Pending
  ∧ promises (run json (start None None)
                ([Write block1 true; EmitDrain]
                 ++ [EmitError "EPIPE"; Write block1 false; Close])) !! 0
    = Some Fulfilled.
Proof.
  assert (Hp : promises (run json (start None None)
                           [Write block1 true; EmitDrain]) !! 0
               = Some (@Fulfilled string)) by reflexivity.
  assert (Hne : @Fulfilled string ≠ Pending) by discriminate.
  split; [exact Hp|]. split; [exact Hne|].
  exact (settled_promise_is_final json None None
           [Write block1 true; EmitDrain]
           [EmitError "EPIPE"; Write block1 false; Close] 0 _ Hp Hne).
Defined.
End more_Stream_samples.
